(** * Memory Palace: the practice generator and the practice controls

    A shallow embedding of [main.py]: the SQLite data layer (class [DB]),
    the generator function [practice_generator], and the practice controls
    of [MemoryPalaceApp] ([start_practice], [stop_practice],
    [next_practice]).

    - A table is the list of its rows in rowid order.  The connection also
      carries the [sqlite_sequence] counters of the three AUTOINCREMENT
      keys and the [foreign_keys] pragma of the connection.
    - [random.shuffle] is the loop of the Python library
      ([for i in reversed(range(1, len(x))): j = randbelow(i + 1);
      x[i], x[j] = x[j], x[i]]) over an explicit source of draws.
    - A generator object is a value of [gen_state]: not yet entered,
      suspended at its [yield], or finished; [gen_next] is [next(gen)].
    - The Tk widgets are reduced to what the practice controls read and
      write: the listbox selection, the status label and the canvas. *)

From stdpp Require Import base numbers list sorting strings.
From stdpp Require Import relations.
From Stdlib Require Import Ascii DecimalString DecimalZ DecimalPos.

Local Open Scope Z_scope.

(** ** Rows *)

(** [rooms (id, name, description)] *)
Record room_row := RoomRow {
  room_id : Z;
  room_name : string;
  room_description : string
}.

(** [items (id, room_id, name, hint, image_path)]; [room_id] is a nullable
    column.  This is also the tuple yielded by [practice_generator]. *)
Record item_row := ItemRow {
  item_id : Z;
  item_room_id : option Z;
  item_name : string;
  item_hint : string;
  item_image_path : string
}.

(** [progress (id, item_id, seen_at, note)] *)
Record progress_row := ProgressRow {
  progress_id : Z;
  progress_item_id : Z;
  progress_seen_at : Z;
  progress_note : string
}.

(** The row shape of [DB.list_items]:
    [SELECT id, name, hint, image_path]. *)
Definition item_view : Type := Z * string * string * string.

Definition view_of (it : item_row) : item_view :=
  (item_id it, item_name it, item_hint it, item_image_path it).

(** [WHERE room_id = ?]: a comparison with NULL on either side is not
    true, so a NULL column and a [None] parameter both select nothing. *)
Definition room_eq (param : option Z) (col : option Z) : Prop :=
  match param, col with
  | Some r, Some c => c = r
  | _, _ => False
  end.

#[global] Instance room_eq_dec param col : Decision (room_eq param col).
Proof. destruct param, col; simpl; apply _. Defined.

(** [WHERE room_id IN (?, ..., ?)] *)
Definition room_in (params : list Z) (col : option Z) : Prop :=
  match col with
  | Some c => c ∈ params
  | None => False
  end.

#[global] Instance room_in_dec params col : Decision (room_in params col).
Proof. destruct col; simpl; apply _. Defined.

(** [ORDER BY id] *)
Definition id_le {A} (key : A → Z) : relation A :=
  λ a b, key a ≤ key b.

#[global] Instance id_le_dec {A} (key : A → Z) : RelDecision (id_le key).
Proof. intros a b. unfold id_le. apply _. Defined.

Definition order_by_id {A} (key : A → Z) : list A → list A :=
  merge_sort (id_le key).

(** ** Data layer: class [DB] *)

Module DB.

Record conn := Conn {
  foreign_keys : bool;
  rooms : list room_row;
  items : list item_row;
  progress : list progress_row;
  seq_rooms : Z;
  seq_items : Z;
  seq_progress : Z
}.

(** [sqlite3.connect(db_path)] on a new file followed by
    [_ensure_schema]: three empty tables.  SQLite leaves foreign key
    enforcement off on every new connection, and no statement of the
    program is [PRAGMA foreign_keys = ON]. *)
Definition connect : conn :=
  Conn false [] [] [] 0 0 0.

Definition set_rooms (c : conn) rs sq : conn :=
  Conn (foreign_keys c) rs (items c) (progress c)
       sq (seq_items c) (seq_progress c).
Definition set_items (c : conn) its sq : conn :=
  Conn (foreign_keys c) (rooms c) its (progress c)
       (seq_rooms c) sq (seq_progress c).
Definition set_progress (c : conn) ps sq : conn :=
  Conn (foreign_keys c) (rooms c) (items c) ps
       (seq_rooms c) (seq_items c) sq.

Inductive error := IntegrityError.

(** [add_room]: [name] is [NOT NULL UNIQUE]; returns [cur.lastrowid]. *)
Definition add_room (c : conn) (name description : string)
    : error + (Z * conn) :=
  if decide (name ∈ room_name <$> rooms c) then inl IntegrityError
  else
    let id := seq_rooms c + 1 in
    inr (id, set_rooms c (rooms c ++ [RoomRow id name description]) id).

(** [SELECT id, name, description FROM rooms ORDER BY id] *)
Definition list_rooms (c : conn) : list room_row :=
  order_by_id room_id (rooms c).

(** [DELETE FROM rooms WHERE id = ?].  The [ON DELETE CASCADE] of
    [items.room_id] is an action of the foreign key, which SQLite
    performs only on a connection whose [foreign_keys] pragma is on. *)
Definition delete_room (c : conn) (rid : Z) : conn :=
  let rs := filter (λ r, room_id r ≠ rid) (rooms c) in
  let its :=
    if foreign_keys c
    then filter (λ it, item_room_id it ≠ Some rid) (items c)
    else items c in
  Conn (foreign_keys c) rs its (progress c)
       (seq_rooms c) (seq_items c) (seq_progress c).

(** [add_item]; the parent key is looked up only under the pragma. *)
Definition add_item (c : conn) (rid : option Z) (name hint image_path : string)
    : error + (Z * conn) :=
  let orphan :=
    match rid with
    | Some r => bool_decide (r ∉ room_id <$> rooms c)
    | None => false
    end in
  if foreign_keys c && orphan then inl IntegrityError
  else
    let id := seq_items c + 1 in
    inr (id, set_items c (items c ++ [ItemRow id rid name hint image_path]) id).

(** [SELECT id, name, hint, image_path FROM items
     WHERE room_id = ? ORDER BY id] *)
Definition list_items (c : conn) (rid : option Z) : list item_view :=
  view_of <$> order_by_id item_id
                (filter (λ it, room_eq rid (item_room_id it)) (items c)).

(** [DELETE FROM items WHERE id = ?] *)
Definition delete_item (c : conn) (iid : Z) : conn :=
  set_items c (filter (λ it, item_id it ≠ iid) (items c)) (seq_items c).

(** [log_seen]: [seen_at] defaults to [CURRENT_TIMESTAMP], the clock
    reading [now] at the time of the insert; [note] defaults to the
    empty string. *)
Definition log_seen (c : conn) (now : Z) (iid : Z) : conn :=
  let id := seq_progress c + 1 in
  set_progress c (progress c ++ [ProgressRow id iid now ""]) id.

End DB.

(** The constraints of the schema that SQLite maintains on every
    connection: the two primary keys and the [UNIQUE] room name, and the
    AUTOINCREMENT counters, which never fall behind a key in use. *)
Record db_wf (c : DB.conn) : Prop := DbWf {
  wf_room_ids : NoDup (room_id <$> DB.rooms c);
  wf_room_names : NoDup (room_name <$> DB.rooms c);
  wf_item_ids : NoDup (item_id <$> DB.items c);
  wf_room_seq : Forall (λ r, room_id r ≤ DB.seq_rooms c) (DB.rooms c);
  wf_item_seq : Forall (λ it, item_id it ≤ DB.seq_items c) (DB.items c)
}.

(** Referential integrity of [items.room_id]: every non-NULL reference
    resolves to a stored room. *)
Definition no_orphans (c : DB.conn) : Prop :=
  ∀ it r, it ∈ DB.items c → item_room_id it = Some r →
          r ∈ room_id <$> DB.rooms c.

(** The connections the program can get to: a new one, changed by the
    statements of [DB]. *)
Inductive reachable : DB.conn → Prop :=
  | reach_connect : reachable DB.connect
  | reach_add_room c name description id c' :
      reachable c → DB.add_room c name description = inr (id, c') →
      reachable c'
  | reach_delete_room c rid :
      reachable c → reachable (DB.delete_room c rid)
  | reach_add_item c rid name hint image_path id c' :
      reachable c → DB.add_item c rid name hint image_path = inr (id, c') →
      reachable c'
  | reach_delete_item c iid :
      reachable c → reachable (DB.delete_item c iid)
  | reach_log_seen c now iid :
      reachable c → reachable (DB.log_seen c now iid).

Local Close Scope Z_scope.

(** ** [random.shuffle] *)

(** The state of the [random] module: the draws it will hand out and how
    many were taken.  [randbelow n] is [self._randbelow(n)], a number
    below [n]. *)
Record rng := Rng { draws : nat → nat; cursor : nat }.

Definition randbelow (n : nat) (g : rng) : nat * rng :=
  (draws g (cursor g) `mod` n, Rng (draws g) (S (cursor g))).

(** [x[i], x[j] = x[j], x[i]]: the right-hand side is read first, then
    [x[i]] and [x[j]] are stored in this order.  Python raises
    [IndexError] out of range; [shuffle] never gets there, and the list
    is then left as it is. *)
Definition swap {A} (x : list A) (i j : nat) : list A :=
  match x !! j, x !! i with
  | Some xj, Some xi => <[j:=xi]> (<[i:=xj]> x)
  | _, _ => x
  end.

(** [for i in reversed(range(1, n + 1)): j = randbelow(i + 1); swap] *)
Fixpoint shuffle_down {A} (n : nat) (x : list A) (g : rng) : list A * rng :=
  match n with
  | 0 => (x, g)
  | S n' =>
      let '(j, g') := randbelow (S n) g in
      shuffle_down n' (swap x n j) g'
  end.

Definition shuffle {A} (x : list A) (g : rng) : list A * rng :=
  shuffle_down (length x - 1) x g.

(** ** [practice_generator] *)

(** Python's truth value of the [rooms] argument: [None] and the empty
    list are false. *)
Definition truthy (rooms : option (list Z)) : bool :=
  match rooms with
  | Some (_ :: _) => true
  | _ => false
  end.

(** The two queries of the generator, chosen by [if rooms:].  Neither has
    an [ORDER BY]; the rows come in the order of the table. *)
Definition fetch_items (c : DB.conn) (rooms : option (list Z)) : list item_row :=
  if truthy rooms
  then filter (λ it, room_in (default [] rooms) (item_room_id it)) (DB.items c)
  else DB.items c.

(** A generator object.  Calling [practice_generator] runs none of its
    body: the queries run at the first [next].  Once entered, the
    generator is suspended at its [yield] with [items] fetched and the
    rest of [sequence] still to come. *)
Inductive gen_state :=
  | GenCreated (rooms : option (list Z)) (shuffle repeat : bool)
  | GenSuspended (items pending : list item_row) (shuffle repeat : bool)
  | GenFinished.

Definition practice_generator
    (rooms : option (list Z)) (shuffle repeat : bool) : gen_state :=
  GenCreated rooms shuffle repeat.

(** What [next(gen)] does: it hands out an item, raises [StopIteration],
    or never comes back ([Hang]: a pass of [while True] over an empty
    [sequence] with [repeat] set returns to the loop head unchanged). *)
Inductive pull :=
  | Yield (it : item_row)
  | StopIteration
  | Hang.

(** One entry of the [while True] body: copy, shuffle, first [yield]. *)
Definition start_round (items : list item_row) (sh rp : bool) (g : rng)
    : pull * gen_state * rng :=
  let '(sequence, g') := if sh then shuffle items g else (items, g) in
  match sequence with
  | it :: pending => (Yield it, GenSuspended items pending sh rp, g')
  | [] =>
      if rp then (Hang, GenSuspended items [] sh rp, g')
      else (StopIteration, GenFinished, g')
  end.

Definition gen_next (c : DB.conn) (g : rng) (s : gen_state)
    : pull * gen_state * rng :=
  match s with
  | GenCreated rooms sh rp =>
      match fetch_items c rooms with
      | [] => (StopIteration, GenFinished, g)
      | items => start_round items sh rp g
      end
  | GenSuspended items (it :: pending) sh rp =>
      (Yield it, GenSuspended items pending sh rp, g)
  | GenSuspended items [] sh rp =>
      if rp then start_round items sh rp g
      else (StopIteration, GenFinished, g)
  | GenFinished => (StopIteration, GenFinished, g)
  end.

(** Once entered and suspended, the generator holds a non-empty [items]:
    the guard [if not items: return] has been passed. *)
Definition gen_ok (s : gen_state) : Prop :=
  match s with
  | GenSuspended items _ _ _ => items ≠ []
  | _ => True
  end.

(** [list(gen)]: pull until [StopIteration]. *)
Fixpoint consume (fuel : nat) (c : DB.conn) (g : rng) (s : gen_state)
    : option (list item_row * rng) :=
  match fuel with
  | 0 => None
  | S fuel' =>
      match gen_next c g s with
      | (Yield it, s', g') =>
          match consume fuel' c g' s' with
          | Some (out, g'') => Some (it :: out, g'')
          | None => None
          end
      | (StopIteration, _, g') => Some ([], g')
      | (Hang, _, _) => None
      end
  end.

(** [n] calls of [next(gen)] in a row. *)
Fixpoint pulls (n : nat) (c : DB.conn) (g : rng) (s : gen_state)
    : list pull * gen_state * rng :=
  match n with
  | 0 => ([], s, g)
  | S n' =>
      let '(p, s', g') := gen_next c g s in
      let '(ps, s'', g'') := pulls n' c g' s' in
      (p :: ps, s'', g'')
  end.

(** The [k]-th block of [n] pulls, counting from 0. *)
Definition block (k n : nat) (c : DB.conn) (g : rng) (s : gen_state) : list pull :=
  take n (drop (k * n) (pulls (S k * n) c g s).1.1).

(** The states from which a pass over the whole of [its] begins. *)
Definition round_start (c : DB.conn) (its : list item_row) (sh rp : bool)
    (s : gen_state) : Prop :=
  (∃ rooms, s = GenCreated rooms sh rp ∧ fetch_items c rooms = its)
  ∨ (rp = true ∧ s = GenSuspended its [] sh rp).

(** ** Practice controls of [MemoryPalaceApp] *)

Module MemoryPalaceApp.

(** The text of the [practice_status] label. *)
Inductive status :=
  | StatusReady
  | StatusPracticing
  | StatusStopped
  | StatusLastItem (name : string).

(** What the canvas shows; [next_practice] draws the item's name, hint
    and image. *)
Inductive canvas_content :=
  | CanvasBlank
  | CanvasPractice (name hint image_path : string).

Record app := App {
  db : DB.conn;
  rooms : list room_row;
  rooms_sel : option nat;
  practice_gen : option gen_state;
  practice_status : status;
  canvas : canvas_content
}.

(** What a practice control reports: the item it put on the canvas, or
    one of the two [messagebox.showinfo] dialogs. *)
Inductive signal :=
  | Shown (it : item_row)
  | InfoStartFirst
  | InfoFinished
  | Hung.

Inductive exn := IndexError.

(** [__init__]: [refresh_rooms] fills the listbox; nothing selected. *)
Definition init (c : DB.conn) : app :=
  App c (DB.list_rooms c) None None StatusReady CanvasBlank.

(** [refresh_rooms] empties and refills the listbox, which drops the
    selection. *)
Definition refresh_rooms (a : app) : app :=
  App (db a) (DB.list_rooms (db a)) None
      (practice_gen a) (practice_status a) (canvas a).

(** [delete_selected_room], [confirm] being the answer to the dialog. *)
Definition delete_selected_room (a : app) (confirm : bool) : exn + app :=
  match rooms_sel a with
  | None => inr a
  | Some idx =>
      match rooms a !! idx with
      | None => inl IndexError
      | Some r =>
          if confirm then
            let a' := App (DB.delete_room (db a) (room_id r)) (rooms a)
                          (rooms_sel a) (practice_gen a)
                          (practice_status a) (canvas a) in
            let a'' := refresh_rooms a' in
            inr (App (db a'') (rooms a'') (rooms_sel a'')
                     (practice_gen a'') (practice_status a'') CanvasBlank)
          else inr a
      end
  end.

Definition stop_practice (a : app) : app :=
  App (db a) (rooms a) (rooms_sel a) None StatusStopped (canvas a).

Definition next_practice (a : app) (g : rng) (now : Z)
    : signal * app * rng :=
  match practice_gen a with
  | None => (InfoStartFirst, a, g)
  | Some gen =>
      match gen_next (db a) g gen with
      | (StopIteration, gen', g') =>
          (InfoFinished,
           stop_practice (App (db a) (rooms a) (rooms_sel a) (Some gen')
                              (practice_status a) (canvas a)),
           g')
      | (Yield it, gen', g') =>
          (Shown it,
           App (DB.log_seen (db a) now (item_id it)) (rooms a) (rooms_sel a)
               (Some gen') (StatusLastItem (item_name it))
               (CanvasPractice (item_name it) (item_hint it)
                               (item_image_path it)),
           g')
      | (Hang, gen', g') =>
          (Hung,
           App (db a) (rooms a) (rooms_sel a) (Some gen')
               (practice_status a) (canvas a),
           g')
      end
  end.

(** The [rooms] argument [start_practice] makes from the listbox
    selection: [None] without one, else the id of the selected room. *)
Definition selected_rooms (a : app) : exn + option (list Z) :=
  match rooms_sel a with
  | None => inr None
  | Some idx =>
      match rooms a !! idx with
      | None => inl IndexError
      | Some r => inr (Some [room_id r])
      end
  end.

Definition start_practice (a : app) (g : rng) (now : Z)
    : exn + (signal * app * rng) :=
  match selected_rooms a with
  | inl e => inl e
  | inr rooms =>
      inr (next_practice
             (App (db a) (MemoryPalaceApp.rooms a) (rooms_sel a)
                  (Some (practice_generator rooms true false))
                  StatusPracticing (canvas a)) g now)
  end.

End MemoryPalaceApp.

(** ** A small palace *)

(** Room "R1" with the items A, B and C, as [add_room] and [add_item]
    leave the tables on a new connection. *)
Definition demo_db : DB.conn :=
  DB.Conn false
    [RoomRow 1 "R1" ""]
    [ItemRow 1 (Some 1%Z) "A" "a" ""; ItemRow 2 (Some 1%Z) "B" "b" "";
     ItemRow 3 (Some 1%Z) "C" "c" ""]
    [] 1 3 0.

(** A source of draws. *)
Definition demo_rng : rng := Rng (λ i, 2 * i + 1) 0.

(** The window over [demo_db] with room "R1" selected in the listbox. *)
Definition demo_app : MemoryPalaceApp.app :=
  MemoryPalaceApp.App demo_db (DB.list_rooms demo_db) (Some 0) None
    MemoryPalaceApp.StatusReady MemoryPalaceApp.CanvasBlank.

(** The window in the middle of a session: [demo_app] after "start" at
    time 100 with the draws of [demo_rng]; A is on the canvas, C and B
    are still to come. *)
Definition demo_session : MemoryPalaceApp.app :=
  MemoryPalaceApp.App (DB.log_seen demo_db 100 1) (DB.list_rooms demo_db)
    (Some 0)
    (Some (GenSuspended
             [ItemRow 1 (Some 1%Z) "A" "a" ""; ItemRow 2 (Some 1%Z) "B" "b" "";
              ItemRow 3 (Some 1%Z) "C" "c" ""]
             [ItemRow 3 (Some 1%Z) "C" "c" ""; ItemRow 2 (Some 1%Z) "B" "b" ""]
             true false))
    (MemoryPalaceApp.StatusLastItem "A")
    (MemoryPalaceApp.CanvasPractice "A" "a" "").

(** A window whose listbox still shows a room 7 that the store, changed
    behind it, no longer has; that room is selected. *)
Definition stale_app : MemoryPalaceApp.app :=
  MemoryPalaceApp.App demo_db [RoomRow 1 "R1" ""; RoomRow 7 "R7" ""] (Some 1)
    None MemoryPalaceApp.StatusReady MemoryPalaceApp.CanvasBlank.

(** ** Histories of a connection *)

(** One statement of [DB] run on a connection. *)
Inductive db_step : DB.conn → DB.conn → Prop :=
  | step_add_room c name description id c' :
      DB.add_room c name description = inr (id, c') → db_step c c'
  | step_delete_room c rid :
      db_step c (DB.delete_room c rid)
  | step_add_item c rid name hint image_path id c' :
      DB.add_item c rid name hint image_path = inr (id, c') → db_step c c'
  | step_delete_item c iid :
      db_step c (DB.delete_item c iid)
  | step_log_seen c now iid :
      db_step c (DB.log_seen c now iid).

(** Ascending keys. *)
Definition id_lt {A} (key : A → Z) : relation A :=
  λ a b, (key a < key b)%Z.

(** Every table holds its rows in ascending order of the key, as
    AUTOINCREMENT appends them, and the counter of [progress] is not
    behind a key in use. *)
Record rowid_order (c : DB.conn) : Prop := RowidOrder {
  ro_rooms : StronglySorted (id_lt room_id) (DB.rooms c);
  ro_items : StronglySorted (id_lt item_id) (DB.items c);
  ro_progress : StronglySorted (id_lt progress_id) (DB.progress c);
  ro_progress_seq :
    Forall (λ p, (progress_id p ≤ DB.seq_progress c)%Z) (DB.progress c)
}.

(** ** Sessions *)

(** A generator whose body has been entered: it has made its query. *)
Definition entered (s : gen_state) : Prop :=
  match s with
  | GenCreated _ _ _ => False
  | _ => True
  end.

(** The "next" button pressed until the end-of-sequence notice comes;
    [clock t] is the time of the [t]-th press.  The result is the list of
    the items shown on the way. *)
Fixpoint next_until_finished (fuel t : nat) (clock : nat → Z)
    (a : MemoryPalaceApp.app) (g : rng)
    : option (list item_row * MemoryPalaceApp.app * rng) :=
  match fuel with
  | 0 => None
  | S fuel' =>
      match MemoryPalaceApp.next_practice a g (clock t) with
      | (MemoryPalaceApp.Shown it, a', g') =>
          match next_until_finished fuel' (S t) clock a' g' with
          | Some (shown, a'', g'') => Some (it :: shown, a'', g'')
          | None => None
          end
      | (MemoryPalaceApp.InfoFinished, a', g') => Some ([], a', g')
      | _ => None
      end
  end.

(** A clock: the [t]-th press of a button happens at [100 + t]. *)
Definition demo_clock (t : nat) : Z := (100 + Z.of_nat t)%Z.

(** The listbox shows the rooms of the store. *)
Definition in_sync (a : MemoryPalaceApp.app) : Prop :=
  MemoryPalaceApp.rooms a = DB.list_rooms (MemoryPalaceApp.db a).

(** ** The room dialog and the start of the program *)

(** How the "add" button of a dialog ends: with a warning and the dialog
    still open, with an error message, or with the dialog closed. *)
Inductive dialog_end :=
  | WarnNameEmpty
  | ErrorNameTaken
  | DialogClosed.

(** [ok] of [add_room_dialog]; [name] is the text of the name entry after
    [strip()], [description] the text of the other entry.  After the
    [IntegrityError] message the listbox is refreshed and the dialog
    closed all the same. *)
Definition add_room_dialog_ok (a : MemoryPalaceApp.app)
    (name description : string) : dialog_end * MemoryPalaceApp.app :=
  if decide (name = "") then (WarnNameEmpty, a)
  else
    match DB.add_room (MemoryPalaceApp.db a) name description with
    | inl DB.IntegrityError =>
        (ErrorNameTaken, MemoryPalaceApp.refresh_rooms a)
    | inr (_, c') =>
        (DialogClosed,
         MemoryPalaceApp.refresh_rooms
           (MemoryPalaceApp.App c' (MemoryPalaceApp.rooms a)
              (MemoryPalaceApp.rooms_sel a) (MemoryPalaceApp.practice_gen a)
              (MemoryPalaceApp.practice_status a) (MemoryPalaceApp.canvas a)))
    end.

(** The block under [if __name__ == "__main__"], up to the making of the
    window: a store without rooms gets a first room and one item in it.
    [example_img] is [os.path.join(ASSETS_DIR, "winged_cat.png")] and
    [img_exists] tells whether that file exists. *)
Definition bootstrap (c : DB.conn) (example_img : string) (img_exists : bool)
    : DB.error + DB.conn :=
  match DB.list_rooms c with
  | [] =>
      match DB.add_room c "اتاق اول" "اتاق نمونه برای شروع" with
      | inl e => inl e
      | inr (r_id, c1) =>
          let added :=
            if img_exists
            then DB.add_item c1 (Some r_id) "گربه بالدار"
                             "تصویر گربه با بال طلایی" example_img
            else DB.add_item c1 (Some r_id) "گربه خیالی"
                             "گربه‌ای با بال طلایی (بدون تصویر)" "" in
          match added with
          | inl e => inl e
          | inr (_, c2) => inr c2
          end
      end
  | _ :: _ => inr c
  end.

(** ** The item list of the window *)

(** [str(z)] and [int(s)] of Python for integers written in decimal.
    [py_int] is [int] on the texts made of digits and ["-"], the only
    ones that reach it here: [None] is [ValueError]. *)
Definition py_str (z : Z) : string :=
  NilZero.string_of_int (Z.to_int z).

Definition py_int (s : string) : option Z :=
  Z.of_int <$> NilZero.int_of_string s.

(** [s.split(sep)] for a separator of one character. *)
Fixpoint split_on (sep : ascii) (s : string) : list string :=
  match s with
  | EmptyString => [EmptyString]
  | String ch s' =>
      if Ascii.eqb ch sep then EmptyString :: split_on sep s'
      else
        match split_on sep s' with
        | part :: parts => String ch part :: parts
        | [] => [String ch EmptyString]
        end
  end.

(** A row of [items_tree]: its [iid] and the values of its two columns. *)
Record tree_row := TreeRow {
  tree_iid : string;
  tree_hint : string;
  tree_img : string
}.

(** [f"item-{row[0]}"] *)
Definition item_iid (id : Z) : string := "item-" +:+ py_str id.

Inductive parse_error := IidIndexError | IidValueError.

(** [int(iid.split("-")[1])] *)
Definition iid_item_id (iid : string) : parse_error + Z :=
  match split_on "-" iid !! 1 with
  | None => inl IidIndexError
  | Some part =>
      match py_int part with
      | None => inl IidValueError
      | Some z => inr z
      end
  end.

(** What this part of the window holds: the room last selected, the rows
    of the tree and the [iid] of the selected row. *)
Record item_pane := ItemPane {
  current_room_id : option Z;
  items_tree : list tree_row;
  items_sel : option string
}.

Section item_list.
(** [os.path.basename], which depends on the platform. *)
Variable basename : string → string.

(** The row [refresh_items] inserts for a row of [list_items]: the column
    "hint" gets [row[2]], the column "img" the base name of [row[3]]. *)
Definition tree_row_of (row : item_view) : tree_row :=
  let '(id, _, hint, image_path) := row in
  TreeRow (item_iid id) hint
          (if decide (image_path = "") then "" else basename image_path).

(** [refresh_items]: the tree is emptied and filled from [list_items];
    no row is selected afterwards. *)
Definition refresh_items (c : DB.conn) (p : item_pane) (rid : option Z)
    : item_pane :=
  ItemPane (current_room_id p) (tree_row_of <$> DB.list_items c rid) None.

(** [delete_selected_item], [confirm] being the answer to the dialog. *)
Definition delete_selected_item (c : DB.conn) (p : item_pane)
    (confirm : bool) : parse_error + (DB.conn * item_pane) :=
  match items_sel p with
  | None => inr (c, p)
  | Some iid =>
      match iid_item_id iid with
      | inl e => inl e
      | inr id =>
          if confirm then
            let c' := DB.delete_item c id in
            inr (c', refresh_items c' p (current_room_id p))
          else inr (c, p)
      end
  end.


End item_list.

(** * Properties *)

(** ** The shuffle only reorders *)

Section shuffle_facts.
Context {A : Type}.
Implicit Types (x : list A) (g : rng).

Lemma swap_Permutation x i j : swap x i j ≡ₚ x.
Proof.
  unfold swap.
  destruct (x !! j) as [xj|] eqn:Hj; [|done].
  destruct (x !! i) as [xi|] eqn:Hi; [|done].
  by apply Permutation_insert_swap.
Qed.

Lemma shuffle_down_Permutation n x g : (shuffle_down n x g).1 ≡ₚ x.
Proof.
  revert x g. induction n as [|n IH]; intros x g; [done|].
  cbn [shuffle_down]. unfold randbelow.
  rewrite IH. apply swap_Permutation.
Qed.

Lemma shuffle_Permutation x g : (shuffle x g).1 ≡ₚ x.
Proof. apply shuffle_down_Permutation. Qed.
End shuffle_facts.

(** ** One round of the generator *)

Lemma start_round_yields its sh rp g :
  its ≠ [] →
  ∃ it pending g',
    start_round its sh rp g = (Yield it, GenSuspended its pending sh rp, g')
    ∧ it :: pending ≡ₚ its
    ∧ (sh = false → it :: pending = its ∧ g' = g).
Proof.
  intros Hne. unfold start_round.
  destruct sh.
  - pose proof (shuffle_Permutation its g) as Hp.
    destruct (shuffle its g) as [sequence g'] eqn:Hs. simpl in Hp.
    destruct sequence as [|it pending].
    + apply Permutation_nil_l in Hp. congruence.
    + exists it, pending, g'. by repeat split.
  - destruct its as [|it pending]; [done|].
    exists it, pending, g. by repeat split.
Qed.

(** [next] always comes back on a generator made by
    [practice_generator], and keeps it so. *)
Lemma gen_next_never_hangs c g s :
  gen_ok s →
  (gen_next c g s).1.1 ≠ Hang ∧ gen_ok (gen_next c g s).1.2.
Proof.
  intros Hok.
  assert (Hround : ∀ its sh rp, its ≠ [] →
            (start_round its sh rp g).1.1 ≠ Hang
            ∧ gen_ok (start_round its sh rp g).1.2).
  { intros its sh rp Hne.
    destruct (start_round_yields its sh rp g Hne)
      as (it & pending & g' & -> & _ & _). by split. }
  destruct s as [rooms sh rp|its [|it pending] sh rp|]; simpl in *.
  - destruct (fetch_items c rooms) as [|it its] eqn:Hf; [done|].
    by apply Hround.
  - destruct rp; [by apply Hround|done].
  - done.
  - done.
Qed.

Lemma gen_next_created_ok c g rooms sh rp :
  (gen_next c g (practice_generator rooms sh rp)).1.1 ≠ Hang.
Proof. by apply gen_next_never_hangs. Qed.

Lemma pulls_pending c g its pending sh rp :
  pulls (length pending) c g (GenSuspended its pending sh rp)
  = (Yield <$> pending, GenSuspended its [] sh rp, g).
Proof.
  induction pending as [|it pending IH]; [done|].
  cbn [length pulls gen_next]. by rewrite IH.
Qed.

Lemma pulls_app a b c g s :
  pulls (a + b) c g s
  = let '(ps, s', g') := pulls a c g s in
    let '(qs, s'', g'') := pulls b c g' s' in
    (ps ++ qs, s'', g'').
Proof.
  revert g s. induction a as [|a IH]; intros g s.
  - simpl. by destruct (pulls b c g s) as [[qs s''] g''].
  - cbn [Nat.add pulls].
    destruct (gen_next c g s) as [[p s'] g'].
    rewrite IH.
    destruct (pulls a c g' s') as [[ps s''] g''].
    by destruct (pulls b c g'' s'') as [[qs s3] g3].
Qed.

Lemma pulls_length n c g s : length (pulls n c g s).1.1 = n.
Proof.
  revert g s. induction n as [|n IH]; intros g s; [done|].
  cbn [pulls].
  destruct (gen_next c g s) as [[p s'] g'].
  specialize (IH g' s').
  destruct (pulls n c g' s') as [[ps s''] g'']. simpl in *. by rewrite IH.
Qed.

Lemma gen_next_round_start c its sh rp s g :
  its ≠ [] → round_start c its sh rp s →
  gen_next c g s = start_round its sh rp g.
Proof.
  intros Hne [(rooms & -> & Hf)|[-> ->]]; simpl; [|done].
  rewrite Hf. by destruct its.
Qed.

Lemma pulls_round c its sh rp s g :
  its ≠ [] → round_start c its sh rp s →
  ∃ blk g',
    pulls (length its) c g s = (Yield <$> blk, GenSuspended its [] sh rp, g')
    ∧ blk ≡ₚ its
    ∧ (sh = false → blk = its).
Proof.
  intros Hne Hs.
  destruct (start_round_yields its sh rp g Hne)
    as (it & pending & g' & Hr & Hp & Hid).
  exists (it :: pending), g'. split; [|split; [done|intros Hsh; by apply Hid]].
  rewrite <- (Permutation_length Hp). cbn [length pulls].
  rewrite (gen_next_round_start c its sh rp s g Hne Hs), Hr.
  by rewrite pulls_pending.
Qed.

Lemma pulls_rounds c its sh s g k :
  its ≠ [] → round_start c its sh true s →
  ∃ ps s' g',
    pulls (k * length its) c g s = (ps, s', g')
    ∧ round_start c its sh true s'
    ∧ Forall (λ p, ∃ it, p = Yield it ∧ it ∈ its) ps.
Proof.
  intros Hne Hs. induction k as [|k IH].
  - exists [], s, g. by repeat split.
  - destruct IH as (ps & s' & g' & Hps & Hs' & Hall).
    destruct (pulls_round c its sh true s' g' Hne Hs')
      as (blk & g'' & Hblk & Hp & _).
    exists (ps ++ (Yield <$> blk)), (GenSuspended its [] sh true), g''.
    split; [|split].
    + replace (S k * length its) with (k * length its + length its) by lia.
      by rewrite pulls_app, Hps, Hblk.
    + by right.
    + apply Forall_app. split; [done|].
      apply Forall_fmap, Forall_forall. intros it Hit. exists it.
      split; [done|]. by rewrite <- Hp.
Qed.

Lemma consume_pending c g its pending sh fuel :
  length pending < fuel →
  consume fuel c g (GenSuspended its pending sh false) = Some (pending, g).
Proof.
  revert fuel. induction pending as [|it pending IH]; intros fuel Hfuel.
  - destruct fuel; [simpl in *; lia|done].
  - destruct fuel as [|fuel]; [simpl in *; lia|].
    cbn [consume gen_next]. rewrite IH; [done|simpl in *; lia].
Qed.

Lemma fetch_items_sublist c rooms : fetch_items c rooms `sublist_of` DB.items c.
Proof.
  destruct rooms as [[|r rs]|]; simpl; [done| |done].
  apply sublist_filter.
Qed.

Lemma fetch_items_NoDup c rooms :
  db_wf c → NoDup (item_id <$> fetch_items c rooms).
Proof.
  intros Hwf. eapply sublist_NoDup; [apply (wf_item_ids c Hwf)|].
  apply fmap_sublist, fetch_items_sublist.
Qed.

Lemma demo_db_no_orphans : no_orphans demo_db.
Proof.
  intros it r Hit Hr. simpl in *.
  repeat (apply elem_of_cons in Hit as [->|Hit]);
    [..|by apply elem_of_nil in Hit];
    simpl in Hr; injection Hr as <-; by left.
Qed.

Lemma demo_db_wf : db_wf demo_db.
Proof.
  split; simpl;
    solve [ apply (bool_decide_unpack _); by vm_compute
          | repeat constructor; simpl; lia ].
Qed.

(** ** The generator without [repeat] *)

(** C1: with [repeat=False] and at least one item fetched, consuming the
    generator to exhaustion gives as many items as were fetched, a
    reordering of them, with the identifier of every fetched item exactly
    once, whether [shuffle] is set or not. *)
Theorem practice_generator_once c rooms sh g :
  db_wf c →
  fetch_items c rooms ≠ [] →
  ∃ out g',
    (∀ fuel, length (fetch_items c rooms) < fuel →
       consume fuel c g (practice_generator rooms sh false) = Some (out, g'))
    ∧ length out = length (fetch_items c rooms)
    ∧ out ≡ₚ fetch_items c rooms
    ∧ (∀ it, it ∈ fetch_items c rooms →
         count_occ Z.eq_dec (item_id <$> out) (item_id it) = 1).
Proof.
  intros Hwf Hne. set (its := fetch_items c rooms) in *.
  destruct (start_round_yields its sh false g Hne)
    as (it & pending & g' & Hr & Hp & _).
  exists (it :: pending), g'. repeat split.
  - intros [|fuel] Hfuel; [lia|].
    cbn [consume]. unfold practice_generator.
    rewrite (gen_next_round_start c its sh false _ g Hne), Hr.
    + rewrite consume_pending; [done|].
      rewrite <- (Permutation_length Hp) in Hfuel. simpl in Hfuel. lia.
    + left. by exists rooms.
  - by apply Permutation_length.
  - done.
  - intros x Hx.
    apply NoDup_count_occ'.
    + apply NoDup_ListNoDup. rewrite Hp. by apply fetch_items_NoDup.
    + apply list_elem_of_In, list_elem_of_fmap_2. by rewrite Hp.
Qed.

Lemma practice_generator_once_witness :
  db_wf demo_db ∧ fetch_items demo_db None ≠ [] ∧
  ∃ out g',
    (∀ fuel, length (fetch_items demo_db None) < fuel →
       consume fuel demo_db demo_rng (practice_generator None true false)
       = Some (out, g'))
    ∧ length out = length (fetch_items demo_db None)
    ∧ out ≡ₚ fetch_items demo_db None
    ∧ (∀ it, it ∈ fetch_items demo_db None →
         count_occ Z.eq_dec (item_id <$> out) (item_id it) = 1).
Proof.
  split; [apply demo_db_wf|]. split; [by vm_compute|].
  apply (practice_generator_once demo_db None true demo_rng);
    [apply demo_db_wf | by vm_compute].
Defined.

(** ** The generator with [repeat] *)

(** C3: with [repeat=True] and at least one item fetched, every block of
    as many pulls as there are items, the first one and each one after
    it, hands out a reordering of the items, and no pull ever ends the
    sequence. *)
Theorem practice_generator_repeat c rooms sh g :
  fetch_items c rooms ≠ [] →
  (∀ k, ∃ blk,
     block k (length (fetch_items c rooms)) c g
           (practice_generator rooms sh true) = Yield <$> blk
     ∧ blk ≡ₚ fetch_items c rooms)
  ∧ (∀ n, Forall (λ p, ∃ it, p = Yield it)
            (pulls n c g (practice_generator rooms sh true)).1.1).
Proof.
  intros Hne. set (its := fetch_items c rooms) in *.
  assert (Hs : round_start c its sh true (practice_generator rooms sh true)).
  { left. by exists rooms. }
  split.
  - intros k.
    destruct (pulls_rounds c its sh _ g k Hne Hs)
      as (ps & s' & g' & Hps & Hs' & _).
    destruct (pulls_round c its sh true s' g' Hne Hs')
      as (blk & g'' & Hblk & Hp & _).
    exists blk. split; [|done]. unfold block.
    replace (S k * length its) with (k * length its + length its) by lia.
    rewrite pulls_app, Hps, Hblk. simpl.
    pose proof (pulls_length (k * length its) c g
                  (practice_generator rooms sh true)) as Hlen.
    rewrite Hps in Hlen. simpl in Hlen.
    rewrite drop_app_length' by done.
    apply take_ge. rewrite length_fmap. by rewrite (Permutation_length Hp).
  - intros n.
    destruct (pulls_rounds c its sh _ g n Hne Hs)
      as (ps & s' & g' & Hps & _ & Hall).
    assert (Hlen : 1 ≤ length its) by (destruct its; [done|simpl; lia]).
    replace (n * length its) with (n + (n * length its - n)) in Hps by nia.
    rewrite pulls_app in Hps.
    destruct (pulls n c g (practice_generator rooms sh true)) as [[qs s1] g1].
    destruct (pulls _ c g1 s1) as [[rs s2] g2].
    injection Hps as <- _ _. simpl.
    apply Forall_app in Hall as [Hall _].
    eapply Forall_impl; [exact Hall|].
    intros p (it & -> & _). by exists it.
Qed.

Lemma practice_generator_repeat_witness :
  fetch_items demo_db (Some [1%Z]) ≠ [] ∧
  (∀ k, ∃ blk,
     block k (length (fetch_items demo_db (Some [1%Z]))) demo_db demo_rng
           (practice_generator (Some [1%Z]) true true) = Yield <$> blk
     ∧ blk ≡ₚ fetch_items demo_db (Some [1%Z]))
  ∧ (∀ n, Forall (λ p, ∃ it, p = Yield it)
            (pulls n demo_db demo_rng
                   (practice_generator (Some [1%Z]) true true)).1.1).
Proof.
  split; [by vm_compute|].
  apply (practice_generator_repeat demo_db (Some [1%Z]) true demo_rng).
  by vm_compute.
Defined.

(** C8: over an empty fetch with [repeat=True], the first [next] raises
    [StopIteration] at once: the generator is finished, nothing was handed
    out, and consuming it gives the empty list instead of hanging. *)
Theorem practice_generator_empty_repeat c rooms sh g :
  fetch_items c rooms = [] →
  gen_next c g (practice_generator rooms sh true) = (StopIteration, GenFinished, g)
  ∧ (∀ fuel, 0 < fuel →
       consume fuel c g (practice_generator rooms sh true) = Some ([], g))
  ∧ (∀ n, (pulls n c g (practice_generator rooms sh true)).1.1
          = replicate n StopIteration).
Proof.
  intros Hf.
  assert (Hn : gen_next c g (practice_generator rooms sh true)
               = (StopIteration, GenFinished, g)).
  { simpl. by rewrite Hf. }
  split; [done|]. split.
  - intros [|fuel] Hfuel; [lia|]. cbn [consume]. by rewrite Hn.
  - intros [|n]; [done|]. cbn [pulls]. rewrite Hn.
    assert (Hfin : ∀ m, pulls m c g GenFinished
                        = (replicate m StopIteration, GenFinished, g)).
    { induction m as [|m IH]; [done|]. cbn [pulls gen_next]. by rewrite IH. }
    by rewrite Hfin.
Qed.

Lemma practice_generator_empty_repeat_witness :
  fetch_items DB.connect None = []
  ∧ gen_next DB.connect demo_rng (practice_generator None true true)
    = (StopIteration, GenFinished, demo_rng)
  ∧ (∀ fuel, 0 < fuel →
       consume fuel DB.connect demo_rng (practice_generator None true true)
       = Some ([], demo_rng))
  ∧ (∀ n, (pulls n DB.connect demo_rng
                 (practice_generator None true true)).1.1
          = replicate n StopIteration).
Proof.
  split; [reflexivity|].
  apply (practice_generator_empty_repeat DB.connect None true demo_rng).
  reflexivity.
Defined.

(** What consuming the generator returns, for any scope: with fuel
    beyond the number of fetched rows it ends, and hands out a
    reordering of the fetched rows (the rows as fetched, without
    [shuffle]). *)
Lemma consume_whole c rooms sh g :
  ∃ out g',
    (∀ fuel, length (fetch_items c rooms) < fuel →
       consume fuel c g (practice_generator rooms sh false) = Some (out, g'))
    ∧ out ≡ₚ fetch_items c rooms
    ∧ (sh = false → out = fetch_items c rooms).
Proof.
  destruct (fetch_items c rooms) as [|it0 its0] eqn:Hf.
  - exists [], g. split; [|by split].
    intros [|fuel] Hfuel; [simpl in Hfuel; lia|].
    cbn [consume]. unfold practice_generator. cbn [gen_next]. by rewrite Hf.
  - assert (Hne : fetch_items c rooms ≠ []) by by rewrite Hf.
    destruct (start_round_yields (fetch_items c rooms) sh false g Hne)
      as (it & pending & g' & Hr & Hp & Hid).
    rewrite Hf in Hr, Hp, Hid.
    exists (it :: pending), g'. split; [|split; [done|]].
    + intros [|fuel] Hfuel; [simpl in Hfuel; lia|].
      cbn [consume]. unfold practice_generator.
      rewrite (gen_next_round_start c (it0 :: its0) sh false _ g), Hr;
        [|done|left; by exists rooms].
      rewrite consume_pending; [done|].
      apply Permutation_length in Hp. simpl in *. lia.
    + intros Hsh. by destruct (Hid Hsh).
Qed.

(** The [k]-th block of pulls of a repeating generator. *)
Lemma block_round c its sh s g k :
  its ≠ [] → round_start c its sh true s →
  ∃ blk,
    block k (length its) c g s = Yield <$> blk
    ∧ blk ≡ₚ its
    ∧ (sh = false → blk = its).
Proof.
  intros Hne Hs.
  destruct (pulls_rounds c its sh s g k Hne Hs)
    as (ps & s' & g' & Hps & Hs' & _).
  destruct (pulls_round c its sh true s' g' Hne Hs')
    as (blk & g'' & Hblk & Hp & Hid).
  exists blk. split; [|by split]. unfold block.
  replace (S k * length its) with (k * length its + length its) by lia.
  rewrite pulls_app, Hps, Hblk. cbn [fst].
  pose proof (pulls_length (k * length its) c g s) as Hlen.
  rewrite Hps in Hlen. cbn [fst] in Hlen.
  rewrite drop_app_length' by done.
  apply take_ge. rewrite length_fmap. by rewrite (Permutation_length Hp).
Qed.

(** C10: an empty list of room ids is the same scope as no list, and
    the scope is the whole store, not nothing.  The generator made with
    [rooms=[]] behaves at every pull as the one made with [rooms=None];
    consumed without [repeat] it ends and hands out every stored item,
    as many as are stored, each as often as it is stored (in the order of
    the table without [shuffle]); with [repeat] and a store that has
    items, every block of pulls hands out all stored items. *)
Theorem practice_generator_empty_rooms c sh rp g :
  fetch_items c (Some []) = DB.items c
  ∧ fetch_items c (Some []) = fetch_items c None
  ∧ gen_next c g (practice_generator (Some []) sh rp)
    = gen_next c g (practice_generator None sh rp)
  ∧ (∀ n, (pulls n c g (practice_generator (Some []) sh rp)).1.1
          = (pulls n c g (practice_generator None sh rp)).1.1)
  ∧ (∃ out g',
       (∀ fuel, length (DB.items c) < fuel →
          consume fuel c g (practice_generator (Some []) sh false)
          = Some (out, g'))
       ∧ length out = length (DB.items c)
       ∧ out ≡ₚ DB.items c
       ∧ (sh = false → out = DB.items c))
  ∧ (DB.items c ≠ [] →
     ∀ k, ∃ blk,
       block k (length (DB.items c)) c g (practice_generator (Some []) sh true)
       = Yield <$> blk
       ∧ blk ≡ₚ DB.items c).
Proof.
  split; [done|]. split; [done|]. split; [done|].
  split; [intros [|n]; reflexivity|]. split.
  - destruct (consume_whole c (Some []) sh g) as (out & g' & Hrun & Hp & Hid).
    exists out, g'. split; [exact Hrun|].
    split; [by apply Permutation_length|]. by split.
  - intros Hne k.
    destruct (block_round c (DB.items c) sh
                (practice_generator (Some []) sh true) g k Hne)
      as (blk & Hblk & Hp & _); [left; by exists (Some [])|].
    by exists blk.
Qed.

Lemma practice_generator_empty_rooms_witness :
  DB.items demo_db ≠ []
  ∧ (∃ out g',
       (∀ fuel, length (DB.items demo_db) < fuel →
          consume fuel demo_db demo_rng (practice_generator (Some []) true false)
          = Some (out, g'))
       ∧ length out = 3
       ∧ out ≡ₚ DB.items demo_db)
  ∧ (∀ k, ∃ blk,
       block k (length (DB.items demo_db)) demo_db demo_rng
             (practice_generator (Some []) true true)
       = Yield <$> blk
       ∧ blk ≡ₚ DB.items demo_db).
Proof.
  assert (Hne : DB.items demo_db ≠ []) by by vm_compute.
  destruct (practice_generator_empty_rooms demo_db true false demo_rng)
    as (_ & _ & _ & _ & (out & g' & Hrun & Hlen & Hp & _) & Hblocks).
  split; [exact Hne|]. split.
  - exists out, g'. by repeat split.
  - by apply Hblocks.
Defined.

(** ** The practice controls *)

Import MemoryPalaceApp.

(** The three ways of having no generator: a new window, a stopped
    session, a session that ran out. *)
Lemma init_idle c : practice_gen (init c) = None.
Proof. done. Qed.

Lemma stop_practice_idle a : practice_gen (stop_practice a) = None.
Proof. done. Qed.

Lemma next_practice_finished_idle a g now a' g' :
  next_practice a g now = (InfoFinished, a', g') →
  practice_gen a' = None ∧ db a' = db a.
Proof.
  unfold next_practice. destruct (practice_gen a) as [gen|]; [|done].
  destruct (gen_next (db a) g gen) as [[[it| |] gen'] g1]; [done| |done].
  by intros [= <- <-].
Qed.

(** C4: a [next_practice] that shows an item appends one row to
    [progress], whose [item_id] is the id of the item shown, and leaves
    the other two tables as they were. *)
Theorem next_practice_logs_shown a g now it a' g' :
  next_practice a g now = (Shown it, a', g') →
  ∃ ev,
    DB.progress (db a') = DB.progress (db a) ++ [ev]
    ∧ progress_item_id ev = item_id it
    ∧ progress_seen_at ev = now
    ∧ DB.rooms (db a') = DB.rooms (db a)
    ∧ DB.items (db a') = DB.items (db a).
Proof.
  unfold next_practice. destruct (practice_gen a) as [gen|]; [|done].
  destruct (gen_next (db a) g gen) as [[[it1| |] gen'] g1]; [|done|done].
  intros [= <- <- <-]. simpl. by eexists.
Qed.

Lemma next_practice_logs_shown_witness :
  ∃ it a' g',
    next_practice
      (App demo_db [] None (Some (practice_generator None true false))
           StatusPracticing CanvasBlank) demo_rng 100
    = (Shown it, a', g')
    ∧ ∃ ev,
        DB.progress (db a') = DB.progress demo_db ++ [ev]
        ∧ progress_item_id ev = item_id it
        ∧ progress_seen_at ev = 100%Z
        ∧ DB.rooms (db a') = DB.rooms demo_db
        ∧ DB.items (db a') = DB.items demo_db.
Proof.
  do 3 eexists. split; [reflexivity|].
  eapply (next_practice_logs_shown
            (App demo_db [] None (Some (practice_generator None true false))
                 StatusPracticing CanvasBlank) demo_rng 100).
  reflexivity.
Defined.

(** C6: without a generator ([practice_gen] is [None]: see [init_idle],
    [stop_practice_idle] and [next_practice_finished_idle]),
    [next_practice] only shows the notice asking to start a session; the
    window, and with it the whole store, is as before. *)
Theorem next_practice_idle a g now :
  practice_gen a = None →
  next_practice a g now = (InfoStartFirst, a, g)
  ∧ db (next_practice a g now).1.2 = db a.
Proof.
  intros Hidle. unfold next_practice. by rewrite Hidle.
Qed.

Lemma next_practice_idle_witness :
  practice_gen (init demo_db) = None
  ∧ next_practice (init demo_db) demo_rng 100
    = (InfoStartFirst, init demo_db, demo_rng)
  ∧ db (next_practice (init demo_db) demo_rng 100).1.2 = db (init demo_db).
Proof.
  split; [reflexivity|].
  apply (next_practice_idle (init demo_db) demo_rng 100). reflexivity.
Defined.

(** [start_practice] ends with a call of [next_practice]. *)
Lemma start_practice_unfold a g now rooms :
  selected_rooms a = inr rooms →
  start_practice a g now
  = inr (next_practice
           (App (db a) (MemoryPalaceApp.rooms a) (rooms_sel a)
                (Some (practice_generator rooms true false))
                StatusPracticing (canvas a)) g now).
Proof. intros Hsel. unfold start_practice. by rewrite Hsel. Qed.

Lemma start_practice_nothing_fetched a g now rooms :
  selected_rooms a = inr rooms →
  fetch_items (db a) rooms = [] →
  start_practice a g now
  = inr (InfoFinished,
         App (db a) (MemoryPalaceApp.rooms a) (rooms_sel a) None
             StatusStopped (canvas a),
         g).
Proof.
  intros Hsel Hf. rewrite (start_practice_unfold a g now rooms Hsel).
  unfold next_practice, practice_generator. cbn [practice_gen db gen_next].
  by rewrite Hf.
Qed.

(** C5, as the claim has it, fails: on the window over [demo_db],
    [start_practice] returns with the generator already entered, a row
    written to [progress] and an item on the canvas. *)
Lemma start_practice_advances_counterexample :
  ¬ (∀ sig a' g',
       start_practice (init demo_db) demo_rng 100 = inr (sig, a', g') →
       practice_gen a' = Some (practice_generator None true false)
       ∨ DB.progress (db a') = DB.progress (db (init demo_db))
       ∨ canvas a' = canvas (init demo_db)).
Proof.
  intros H.
  destruct (H _ _ _ eq_refl) as [Hgen|[Hlog|Hcanvas]]; discriminate.
Qed.

(** C5, amended: [start_practice] makes the generator with
    [shuffle=True, repeat=False] and performs the first [next_practice]
    itself.  When the scope has an item, it returns with one item pulled
    and shown, and with one row for that item appended to [progress];
    when the scope has none, it gives the end-of-sequence notice, writes
    nothing and leaves no generator behind. *)
Theorem start_practice_first_item a g now rooms :
  selected_rooms a = inr rooms →
  (fetch_items (db a) rooms ≠ [] →
   ∃ it pending g',
     start_practice a g now
     = inr (Shown it,
            App (DB.log_seen (db a) now (item_id it))
                (MemoryPalaceApp.rooms a) (rooms_sel a)
                (Some (GenSuspended (fetch_items (db a) rooms) pending
                                    true false))
                (StatusLastItem (item_name it))
                (CanvasPractice (item_name it) (item_hint it)
                                (item_image_path it)),
            g')
     ∧ it :: pending ≡ₚ fetch_items (db a) rooms
     ∧ DB.progress (DB.log_seen (db a) now (item_id it))
       = DB.progress (db a)
           ++ [ProgressRow (DB.seq_progress (db a) + 1) (item_id it) now ""])
  ∧ (fetch_items (db a) rooms = [] →
     start_practice a g now
     = inr (InfoFinished,
            App (db a) (MemoryPalaceApp.rooms a) (rooms_sel a) None
                StatusStopped (canvas a),
            g)).
Proof.
  intros Hsel. split.
  - intros Hne. rewrite (start_practice_unfold a g now rooms Hsel).
    unfold next_practice, practice_generator. cbn [practice_gen db gen_next].
    destruct (start_round_yields _ true false g Hne)
      as (it & pending & g' & Hr & Hp & _).
    exists it, pending, g'.
    destruct (fetch_items (db a) rooms) as [|it0 its] eqn:Hf; [done|].
    by rewrite Hr.
  - by apply start_practice_nothing_fetched.
Qed.

Lemma start_practice_first_item_witness :
  selected_rooms demo_app = inr (Some [1%Z])
  ∧ fetch_items (db demo_app) (Some [1%Z]) ≠ []
  ∧ ∃ it pending g',
     start_practice demo_app demo_rng 100
     = inr (Shown it,
            App (DB.log_seen (db demo_app) 100 (item_id it))
                (MemoryPalaceApp.rooms demo_app) (rooms_sel demo_app)
                (Some (GenSuspended (fetch_items (db demo_app) (Some [1%Z]))
                                    pending true false))
                (StatusLastItem (item_name it))
                (CanvasPractice (item_name it) (item_hint it)
                                (item_image_path it)),
            g')
     ∧ it :: pending ≡ₚ fetch_items (db demo_app) (Some [1%Z])
     ∧ DB.progress (DB.log_seen (db demo_app) 100 (item_id it))
       = DB.progress (db demo_app)
           ++ [ProgressRow (DB.seq_progress (db demo_app) + 1) (item_id it)
                           100 ""].
Proof.
  split; [reflexivity|]. split; [by vm_compute|].
  apply (start_practice_first_item demo_app demo_rng 100 (Some [1%Z]));
    [reflexivity | by vm_compute].
Defined.

Lemma filter_none {A} (P : A → Prop) `{∀ x, Decision (P x)} (l : list A) :
  (∀ x, x ∈ l → ¬ P x) → filter P l = [].
Proof.
  induction l as [|x l IH]; intros Hl; [done|].
  rewrite filter_cons_False.
  - apply IH. intros y Hy. apply Hl. by right.
  - apply Hl. by left.
Qed.

(** Without orphans, nothing is fetched for a room that is not stored. *)
Lemma fetch_items_missing_room c r :
  no_orphans c → r ∉ room_id <$> DB.rooms c → fetch_items c (Some [r]) = [].
Proof.
  intros Hno Hr. simpl.
  apply filter_none. intros it Hit Hin.
  destruct (item_room_id it) as [r'|] eqn:Hrid; simpl in Hin; [|done].
  apply list_elem_of_singleton in Hin as ->.
  by apply Hr, (Hno it).
Qed.

(** C7, as the claim has it, fails: with room 7 selected, which the store
    does not have, [start_practice] raises nothing; its outcome is the
    end-of-sequence notice. *)
Lemma start_practice_missing_room_counterexample :
  (7%Z ∉ room_id <$> DB.rooms (db stale_app))
  ∧ selected_rooms stale_app = inr (Some [7%Z])
  ∧ ¬ (∃ e, start_practice stale_app demo_rng 100 = inl e)
  ∧ (start_practice stale_app demo_rng 100
     = inr (InfoFinished, stop_practice stale_app, demo_rng)).
Proof.
  split; [apply (bool_decide_unpack _); by vm_compute|].
  split; [reflexivity|].
  split; [by intros [e He]|reflexivity].
Qed.

(** C7, amended: in a store without orphan items, [start_practice] on a
    selected room that the store does not have raises no error: it gives
    the end-of-sequence notice, leaves the store as it was, and ends
    without a generator. *)
Theorem start_practice_missing_room a g now idx r :
  rooms_sel a = Some idx →
  MemoryPalaceApp.rooms a !! idx = Some r →
  room_id r ∉ room_id <$> DB.rooms (db a) →
  no_orphans (db a) →
  start_practice a g now
  = inr (InfoFinished,
         App (db a) (MemoryPalaceApp.rooms a) (rooms_sel a) None
             StatusStopped (canvas a),
         g).
Proof.
  intros Hsel Hidx Hmissing Hno.
  assert (Hrooms : selected_rooms a = inr (Some [room_id r])).
  { unfold selected_rooms. by rewrite Hsel, Hidx. }
  apply (start_practice_nothing_fetched a g now _ Hrooms).
  by apply fetch_items_missing_room.
Qed.

Lemma start_practice_missing_room_witness :
  rooms_sel stale_app = Some 1
  ∧ MemoryPalaceApp.rooms stale_app !! 1 = Some (RoomRow 7 "R7" "")
  ∧ (7%Z ∉ room_id <$> DB.rooms (db stale_app))
  ∧ no_orphans (db stale_app)
  ∧ start_practice stale_app demo_rng 100
    = inr (InfoFinished,
           App (db stale_app) (MemoryPalaceApp.rooms stale_app)
               (rooms_sel stale_app) None StatusStopped (canvas stale_app),
           demo_rng).
Proof.
  split; [reflexivity|]. split; [reflexivity|].
  split; [apply (bool_decide_unpack _); by vm_compute|].
  split; [apply demo_db_no_orphans|].
  apply (start_practice_missing_room stale_app demo_rng 100 1
           (RoomRow 7 "R7" ""));
    [reflexivity | reflexivity
    | apply (bool_decide_unpack _); by vm_compute
    | apply demo_db_no_orphans].
Defined.

(** ** The data layer *)

(** The orders [ORDER BY id] sorts by. *)
#[local] Instance id_le_trans {A} (key : A → Z) : Transitive (id_le key).
Proof. unfold id_le. intros a b c ??. lia. Qed.

#[local] Instance id_le_total {A} (key : A → Z) : Total (id_le key).
Proof. unfold id_le. intros a b. lia. Qed.

Lemma order_by_id_Permutation {A} (key : A → Z) l : order_by_id key l ≡ₚ l.
Proof. apply merge_sort_Permutation. Qed.

Lemma order_by_id_sorted {A} (key : A → Z) l :
  StronglySorted (id_le key) (order_by_id key l).
Proof. apply StronglySorted_merge_sort; apply _. Qed.

(** C9, as the claim has it, fails: [list_items(None)] on [demo_db], which
    stores three items, is not the list of all stored items. *)
Lemma list_items_none_counterexample :
  DB.items demo_db ≠ []
  ∧ DB.list_items demo_db None ≠ view_of <$> DB.items demo_db.
Proof. split; by vm_compute. Qed.

(** C9, amended: [list_items] takes a room identifier and returns exactly
    the stored items of that room, each once, as rows
    [(id, name, hint, image_path)] in ascending order of [id]; for an
    absent identifier ([None]) it returns the empty list, not all
    items. *)
Theorem list_items_of_room c :
  DB.list_items c None = []
  ∧ ∀ r,
      DB.list_items c (Some r)
      ≡ₚ view_of <$> filter (λ it, item_room_id it = Some r) (DB.items c)
      ∧ StronglySorted (λ v w : item_view, (v.1.1.1 ≤ w.1.1.1)%Z)
                       (DB.list_items c (Some r)).
Proof.
  unfold DB.list_items. split.
  - rewrite filter_none; [done|]. by intros it _ [].
  - intros r. split.
    + rewrite order_by_id_Permutation.
      rewrite (list_filter_iff _ (λ it, item_room_id it = Some r)); [done|].
      intros it. destruct (item_room_id it); simpl; naive_solver.
    + eapply StronglySorted_fmap; [|apply order_by_id_sorted].
      by intros x y.
Qed.

(** *** The schema constraints hold on every connection *)

Lemma Forall_filter_keep {A} (P Q : A → Prop) `{∀ x, Decision (Q x)} (l : list A) :
  Forall P l → Forall P (filter Q l).
Proof.
  rewrite !Forall_forall. intros Hl x Hx.
  apply list_elem_of_filter in Hx as [_ Hx]. by apply Hl.
Qed.

Lemma connect_wf : db_wf DB.connect.
Proof. split; simpl; constructor. Qed.

Lemma NoDup_snoc_fresh {A} (key : A → Z) (l : list A) (x : A) (sq : Z) :
  NoDup (key <$> l) → Forall (λ y, (key y ≤ sq)%Z) l → (sq < key x)%Z →
  NoDup (key <$> l ++ [x]).
Proof.
  intros Hnd Hall Hx. rewrite fmap_app. apply NoDup_app.
  split; [done|]. split; [|apply NoDup_singleton].
  intros k Hk Hin. apply list_elem_of_singleton in Hin as ->.
  apply list_elem_of_fmap in Hk as (y & Hky & Hy).
  rewrite Forall_forall in Hall. specialize (Hall y Hy). simpl in Hall. lia.
Qed.

Lemma add_room_wf c name description id c' :
  db_wf c → DB.add_room c name description = inr (id, c') → db_wf c'.
Proof.
  intros [Hids Hnames Hitems Hrseq Hiseq]. unfold DB.add_room.
  destruct (decide _) as [|Hfresh]; [done|]. intros [= <- <-].
  split; simpl; [| |done| |done].
  - eapply NoDup_snoc_fresh; [done|done|simpl; lia].
  - rewrite fmap_app. apply NoDup_app.
    split; [done|]. split; [|apply NoDup_singleton].
    intros n Hn Hin. by apply list_elem_of_singleton in Hin as ->.
  - apply Forall_app. split.
    + eapply Forall_impl; [done|]. simpl. intros; lia.
    + repeat constructor. simpl. lia.
Qed.

Lemma add_item_wf c rid name hint image_path id c' :
  db_wf c → DB.add_item c rid name hint image_path = inr (id, c') → db_wf c'.
Proof.
  intros [Hids Hnames Hitems Hrseq Hiseq]. unfold DB.add_item.
  destruct (_ && _); [done|]. intros [= <- <-].
  split; simpl; [done|done| |done|].
  - eapply NoDup_snoc_fresh; [done|done|simpl; lia].
  - apply Forall_app. split.
    + eapply Forall_impl; [done|]. simpl. intros; lia.
    + repeat constructor. simpl. lia.
Qed.

Lemma delete_room_wf c rid : db_wf c → db_wf (DB.delete_room c rid).
Proof.
  intros [Hids Hnames Hitems Hrseq Hiseq].
  split; simpl.
  - eapply sublist_NoDup; [exact Hids|]. apply fmap_sublist, sublist_filter.
  - eapply sublist_NoDup; [exact Hnames|]. apply fmap_sublist, sublist_filter.
  - destruct (DB.foreign_keys c); [|done].
    eapply sublist_NoDup; [exact Hitems|]. apply fmap_sublist, sublist_filter.
  - by apply Forall_filter_keep.
  - destruct (DB.foreign_keys c); [|done]. by apply Forall_filter_keep.
Qed.

Lemma delete_item_wf c iid : db_wf c → db_wf (DB.delete_item c iid).
Proof.
  intros [Hids Hnames Hitems Hrseq Hiseq].
  split; simpl; [done|done| |done|].
  - eapply sublist_NoDup; [exact Hitems|]. apply fmap_sublist, sublist_filter.
  - by apply Forall_filter_keep.
Qed.

Lemma log_seen_wf c now iid : db_wf c → db_wf (DB.log_seen c now iid).
Proof. by intros []. Qed.

Lemma reachable_wf c : reachable c → db_wf c.
Proof.
  induction 1;
    eauto using connect_wf, add_room_wf, add_item_wf, delete_room_wf,
                delete_item_wf, log_seen_wf.
Qed.

(** No statement of the program turns the pragma on. *)
Lemma reachable_foreign_keys_off c : reachable c → DB.foreign_keys c = false.
Proof.
  induction 1 as [|c name d id c' _ IH Hadd| |c rid n h p id c' _ IH Hadd| |];
    try done.
  - unfold DB.add_room in Hadd. destruct (decide _); [done|].
    by injection Hadd as <- <-.
  - unfold DB.add_item in Hadd. destruct (_ && _); [done|].
    by injection Hadd as <- <-.
Qed.

Lemma demo_db_reachable : reachable demo_db.
Proof.
  pose (c1 := DB.Conn false [RoomRow 1 "R1" ""] [] [] 1 0 0).
  pose (c2 := DB.Conn false [RoomRow 1 "R1" ""]
                [ItemRow 1 (Some 1%Z) "A" "a" ""] [] 1 1 0).
  pose (c3 := DB.Conn false [RoomRow 1 "R1" ""]
                [ItemRow 1 (Some 1%Z) "A" "a" "";
                 ItemRow 2 (Some 1%Z) "B" "b" ""] [] 1 2 0).
  apply (reach_add_item c3 (Some 1%Z) "C" "c" "" 3%Z); [|reflexivity].
  apply (reach_add_item c2 (Some 1%Z) "B" "b" "" 2%Z); [|reflexivity].
  apply (reach_add_item c1 (Some 1%Z) "A" "a" "" 1%Z); [|reflexivity].
  apply (reach_add_room DB.connect "R1" "" 1%Z); [|reflexivity].
  apply reach_connect.
Qed.

(** *** Deleting a room *)

(** With the pragma off, [delete_room] removes the room and nothing
    else. *)
Lemma delete_room_without_pragma c rid :
  DB.foreign_keys c = false →
  DB.items (DB.delete_room c rid) = DB.items c.
Proof. intros Hoff. unfold DB.delete_room. simpl. by rewrite Hoff. Qed.

(** Under the pragma the cascade of the schema would remove the items of
    the room. *)
Lemma delete_room_with_pragma c rid it :
  DB.foreign_keys c = true →
  it ∈ DB.items (DB.delete_room c rid) → item_room_id it ≠ Some rid.
Proof.
  intros Hon. unfold DB.delete_room. simpl. rewrite Hon.
  by intros [? _]%list_elem_of_filter.
Qed.

Lemma delete_room_reachable_keeps_items c rid :
  reachable c → DB.items (DB.delete_room c rid) = DB.items c.
Proof.
  intros Hc. by apply delete_room_without_pragma, reachable_foreign_keys_off.
Qed.

(** C2: [delete_room] on the connection of the program does not remove
    the items of the room.  After room "R1" of [demo_db] is deleted, its
    items A, B and C are all still stored, they reference a room that no
    longer exists, [list_items] still lists them, the generator still
    fetches them, and, after the same deletion from the window,
    [start_practice] shows one of them. *)
Theorem delete_room_leaves_items :
  reachable demo_db
  ∧ (1%Z ∉ room_id <$> DB.rooms (DB.delete_room demo_db 1))
  ∧ DB.items (DB.delete_room demo_db 1) = DB.items demo_db
  ∧ ¬ no_orphans (DB.delete_room demo_db 1)
  ∧ DB.list_items (DB.delete_room demo_db 1) (Some 1%Z)
    = [(1%Z, "A", "a", ""); (2%Z, "B", "b", ""); (3%Z, "C", "c", "")]
  ∧ fetch_items (DB.delete_room demo_db 1) None = DB.items demo_db
  ∧ ∃ a' a'' g',
      delete_selected_room demo_app true = inr a'
      ∧ MemoryPalaceApp.rooms a' = []
      ∧ start_practice a' demo_rng 100
        = inr (Shown (ItemRow 1 (Some 1%Z) "A" "a" ""), a'', g').
Proof.
  split; [apply demo_db_reachable|].
  split; [apply (bool_decide_unpack _); by vm_compute|].
  split; [reflexivity|].
  split.
  { intros Hno.
    assert (Hin : 1%Z ∈ room_id <$> DB.rooms (DB.delete_room demo_db 1)).
    { apply (Hno (ItemRow 1 (Some 1%Z) "A" "a" "")); [by left|done]. }
    by apply elem_of_nil in Hin. }
  split; [by vm_compute|]. split; [reflexivity|].
  do 3 eexists. split; [reflexivity|]. split; [reflexivity|].
  by vm_compute.
Qed.

(** * Further properties of the data layer *)

Section ascending.
Context {A : Type} (key : A → Z).
Implicit Types (l : list A) (x y : A).

Lemma id_lt_filter (P : A → Prop) `{∀ x, Decision (P x)} l :
  StronglySorted (id_lt key) l → StronglySorted (id_lt key) (filter P l).
Proof.
  induction 1 as [|x l Hl IH Hx]; [constructor|].
  rewrite filter_cons. destruct (decide (P x)); [|done].
  constructor; [done|]. by apply Forall_filter_keep.
Qed.

Lemma id_lt_snoc l x sq :
  StronglySorted (id_lt key) l → Forall (λ y, (key y ≤ sq)%Z) l →
  (sq < key x)%Z → StronglySorted (id_lt key) (l ++ [x]).
Proof.
  intros Hl Hsq Hx. apply StronglySorted_app_2; [|done|repeat constructor].
  intros y x' Hy ->%list_elem_of_singleton.
  rewrite Forall_forall in Hsq. specialize (Hsq y Hy).
  unfold id_lt. simpl in Hsq. lia.
Qed.

Lemma id_lt_same_key l x y :
  StronglySorted (id_lt key) l → x ∈ l → y ∈ l → key x = key y → x = y.
Proof.
  induction 1 as [|z l Hl IH Hz]; intros Hx Hy Hk.
  { by apply elem_of_nil in Hx. }
  rewrite Forall_forall in Hz. unfold id_lt in Hz.
  apply elem_of_cons in Hx as [->|Hx]; apply elem_of_cons in Hy as [->|Hy].
  - done.
  - specialize (Hz y Hy). lia.
  - specialize (Hz x Hx). lia.
  - by apply IH.
Qed.

Lemma id_lt_id_le l :
  StronglySorted (id_lt key) l → StronglySorted (id_le key) l.
Proof.
  induction 1 as [|x l Hl IH Hx]; constructor; [done|].
  eapply Forall_impl; [exact Hx|]. unfold id_lt, id_le. intros; lia.
Qed.

(** [ORDER BY id] over rows already in ascending order changes nothing. *)
Lemma order_by_id_ascending l :
  StronglySorted (id_lt key) l → order_by_id key l = l.
Proof.
  intros Hl.
  apply (StronglySorted_unique_strong (id_le key)).
  - intros x y Hx Hy Hxy Hyx.
    rewrite order_by_id_Permutation in Hx.
    apply (id_lt_same_key l); [done..|]. unfold id_le in *. lia.
  - apply order_by_id_sorted.
  - by apply id_lt_id_le.
  - apply order_by_id_Permutation.
Qed.
End ascending.

Lemma connect_rowid_order : rowid_order DB.connect.
Proof. split; simpl; constructor. Qed.

Lemma db_step_rowid_order c c' :
  db_wf c → rowid_order c → db_step c c' → rowid_order c'.
Proof.
  intros [_ _ _ Hrseq Hiseq] [Hr Hi Hp Hpseq] Hstep.
  destruct Hstep as [c name d id c' Hadd|c rid|c rid n h p id c' Hadd|c iid
                     |c now iid].
  - unfold DB.add_room in Hadd. destruct (decide _); [done|].
    injection Hadd as <- <-. split; simpl; [|done..].
    eapply id_lt_snoc; [done|done|simpl; lia].
  - split; simpl; [by apply id_lt_filter| |done|done].
    destruct (DB.foreign_keys c); [by apply id_lt_filter|done].
  - unfold DB.add_item in Hadd. destruct (_ && _); [done|].
    injection Hadd as <- <-. split; simpl; [done| |done|done].
    eapply id_lt_snoc; [done|done|simpl; lia].
  - split; simpl; [done|by apply id_lt_filter|done|done].
  - split; simpl; [done|done| |].
    + eapply id_lt_snoc; [done|done|simpl; lia].
    + apply Forall_app. split.
      * eapply Forall_impl; [exact Hpseq|]. simpl. intros; lia.
      * repeat constructor. simpl. lia.
Qed.

Lemma reachable_db_step c c' : reachable c → db_step c c' → reachable c'.
Proof.
  intros Hc Hstep.
  destruct Hstep as [c name d id c' Hadd|c rid|c rid n h p id c' Hadd|c iid
                     |c now iid].
  - eapply reach_add_room; [exact Hc|exact Hadd].
  - by apply reach_delete_room.
  - eapply reach_add_item; [exact Hc|exact Hadd].
  - by apply reach_delete_item.
  - by apply reach_log_seen.
Qed.

Lemma reachable_rowid_order c : reachable c → rowid_order c.
Proof.
  induction 1 as [|c name d id c' Hc IH Hadd|c rid Hc IH
                  |c rid n h p id c' Hc IH Hadd|c iid Hc IH|c now iid Hc IH].
  - apply connect_rowid_order.
  - eapply db_step_rowid_order; [by apply reachable_wf|done|].
    by eapply step_add_room.
  - eapply db_step_rowid_order; [by apply reachable_wf|done|].
    apply step_delete_room.
  - eapply db_step_rowid_order; [by apply reachable_wf|done|].
    by eapply step_add_item.
  - eapply db_step_rowid_order; [by apply reachable_wf|done|].
    apply step_delete_item.
  - eapply db_step_rowid_order; [by apply reachable_wf|done|].
    apply step_log_seen.
Qed.

Lemma list_rooms_ascending c : rowid_order c → DB.list_rooms c = DB.rooms c.
Proof. intros Hc. by apply order_by_id_ascending, ro_rooms. Qed.

Lemma list_items_ascending c rid :
  rowid_order c →
  DB.list_items c rid
  = view_of <$> filter (λ it, room_eq rid (item_room_id it)) (DB.items c).
Proof.
  intros Hc. unfold DB.list_items. f_equal.
  by apply order_by_id_ascending, id_lt_filter, ro_items.
Qed.

Lemma filter_fmap_comm {A B} (f : A → B) (P : B → Prop)
    `{∀ y, Decision (P y)} (l : list A) :
  filter P (f <$> l) = f <$> filter (λ x, P (f x)) l.
Proof.
  induction l as [|x l IH]; [done|].
  rewrite fmap_cons, !filter_cons. destruct (decide (P (f x))); [|done].
  by rewrite fmap_cons, IH.
Qed.

Lemma filter_all {A} (P : A → Prop) `{∀ x, Decision (P x)} (l : list A) :
  (∀ x, x ∈ l → P x) → filter P l = l.
Proof.
  induction l as [|x l IH]; intros Hl; [done|].
  rewrite filter_cons_True by (apply Hl; by left).
  f_equal. apply IH. intros y Hy. apply Hl. by right.
Qed.

Lemma db_step_wf c c' : db_wf c → db_step c c' → db_wf c'.
Proof.
  intros Hwf Hstep.
  destruct Hstep as [c name d id c' Hadd|c rid|c rid n h p id c' Hadd|c iid
                     |c now iid].
  - by eapply add_room_wf.
  - by apply delete_room_wf.
  - by eapply add_item_wf.
  - by apply delete_item_wf.
  - by apply log_seen_wf.
Qed.

(** *** [add_room] *)

(** X1: on a connection of the program, a successful [add_room] returns
    an id that no stored room has, and [list_rooms] then gives the rooms
    listed before followed by the new one; items and progress are as
    before. *)
Theorem add_room_listed c name description id c' :
  reachable c →
  DB.add_room c name description = inr (id, c') →
  DB.list_rooms c' = DB.list_rooms c ++ [RoomRow id name description]
  ∧ (id ∉ room_id <$> DB.rooms c)
  ∧ DB.items c' = DB.items c
  ∧ DB.progress c' = DB.progress c.
Proof.
  intros Hc Hadd.
  assert (Hc' : reachable c') by (eapply reach_add_room; [exact Hc|exact Hadd]).
  rewrite !list_rooms_ascending by by apply reachable_rowid_order.
  pose proof (wf_room_seq c (reachable_wf c Hc)) as Hseq.
  unfold DB.add_room in Hadd. destruct (decide _); [done|].
  injection Hadd as <- <-. simpl. repeat split.
  intros (r & Hid & Hr)%list_elem_of_fmap.
  rewrite Forall_forall in Hseq. specialize (Hseq r Hr). simpl in Hseq. lia.
Qed.

Lemma add_room_listed_witness :
  reachable demo_db
  ∧ DB.add_room demo_db "R2" "" = inr (2%Z, DB.set_rooms demo_db
        (DB.rooms demo_db ++ [RoomRow 2 "R2" ""]) 2)
  ∧ DB.list_rooms (DB.set_rooms demo_db
        (DB.rooms demo_db ++ [RoomRow 2 "R2" ""]) 2)
    = DB.list_rooms demo_db ++ [RoomRow 2 "R2" ""]
  ∧ (2%Z ∉ room_id <$> DB.rooms demo_db)
  ∧ DB.items (DB.set_rooms demo_db
        (DB.rooms demo_db ++ [RoomRow 2 "R2" ""]) 2) = DB.items demo_db
  ∧ DB.progress (DB.set_rooms demo_db
        (DB.rooms demo_db ++ [RoomRow 2 "R2" ""]) 2) = DB.progress demo_db.
Proof.
  split; [apply demo_db_reachable|]. split; [reflexivity|].
  apply (add_room_listed demo_db "R2" "" 2%Z);
    [apply demo_db_reachable|reflexivity].
Defined.

(** X2: the name of a stored room is taken: [add_room] with it raises
    [IntegrityError].  Once that room is deleted the name is free again,
    and the room made with it gets a new id, larger than the old one. *)
Theorem add_room_name_taken c r description :
  db_wf c → r ∈ DB.rooms c →
  DB.add_room c (room_name r) description = inl DB.IntegrityError
  ∧ ∃ c', DB.add_room (DB.delete_room c (room_id r)) (room_name r) description
          = inr ((DB.seq_rooms c + 1)%Z, c')
          ∧ (room_id r < DB.seq_rooms c + 1)%Z.
Proof.
  intros Hwf Hr. split.
  - unfold DB.add_room. rewrite decide_True; [done|].
    by apply list_elem_of_fmap_2.
  - unfold DB.add_room. rewrite decide_False.
    + eexists. split; [reflexivity|].
      pose proof (wf_room_seq c Hwf) as Hseq.
      rewrite Forall_forall in Hseq. specialize (Hseq r Hr). simpl in Hseq. lia.
    + simpl. intros (r' & Hname & Hr')%list_elem_of_fmap.
      apply list_elem_of_filter in Hr' as [Hne Hr'].
      apply Hne. f_equal.
      pose proof (wf_room_names c Hwf) as Hnames.
      apply list_elem_of_lookup in Hr as [i Hi].
      apply list_elem_of_lookup in Hr' as [j Hj].
      assert (i = j) as ->; [|congruence].
      eapply NoDup_lookup; [exact Hnames| |].
      * rewrite list_lookup_fmap, Hi. reflexivity.
      * rewrite list_lookup_fmap, Hj. simpl. by rewrite Hname.
Qed.

Lemma add_room_name_taken_witness :
  db_wf demo_db ∧ RoomRow 1 "R1" "" ∈ DB.rooms demo_db
  ∧ DB.add_room demo_db "R1" "again" = inl DB.IntegrityError
  ∧ ∃ c', DB.add_room (DB.delete_room demo_db 1) "R1" "again"
          = inr ((DB.seq_rooms demo_db + 1)%Z, c')
          ∧ (1 < DB.seq_rooms demo_db + 1)%Z.
Proof.
  split; [apply demo_db_wf|]. split; [by left|].
  apply (add_room_name_taken demo_db (RoomRow 1 "R1" "") "again");
    [apply demo_db_wf|by left].
Defined.

(** *** [add_item], [list_items], [delete_item] *)

Lemma add_item_appends c rid name hint image_path :
  reachable c →
  ∃ id c',
    DB.add_item c rid name hint image_path = inr (id, c')
    ∧ reachable c'
    ∧ (id ∉ item_id <$> DB.items c)
    ∧ DB.items c' = DB.items c ++ [ItemRow id rid name hint image_path]
    ∧ DB.rooms c' = DB.rooms c
    ∧ ∀ rid',
        DB.list_items c' rid'
        = DB.list_items c rid'
            ++ (if decide (room_eq rid' rid)
                then [(id, name, hint, image_path)] else []).
Proof.
  intros Hc.
  destruct (DB.add_item c rid name hint image_path) as [e|[id c']] eqn:Hadd.
  { unfold DB.add_item in Hadd.
    rewrite (reachable_foreign_keys_off c Hc) in Hadd. done. }
  exists id, c'. split; [done|].
  assert (Hc' : reachable c') by (eapply reach_add_item; [exact Hc|exact Hadd]).
  split; [done|].
  pose proof (wf_item_seq c (reachable_wf c Hc)) as Hseq.
  pose proof (reachable_rowid_order c' Hc') as Hord'.
  unfold DB.add_item in Hadd.
  rewrite (reachable_foreign_keys_off c Hc) in Hadd.
  injection Hadd as <- <-. split; [|split; [done|split; [done|]]].
  - intros (it & Hid & Hit)%list_elem_of_fmap.
    rewrite Forall_forall in Hseq. specialize (Hseq it Hit). simpl in Hseq. lia.
  - intros rid'.
    rewrite (list_items_ascending _ rid' Hord').
    rewrite (list_items_ascending c) by by apply reachable_rowid_order.
    simpl. rewrite filter_app, fmap_app. f_equal.
    rewrite filter_cons. simpl. by destruct (decide _).
Qed.

(** X3: on a connection of the program [add_item] always succeeds, with
    an id that no stored item has; [list_items] of the room then gives
    the rows listed before followed by the new one, and the listing of
    every other room is as before. *)
Theorem add_item_listed c r name hint image_path :
  reachable c →
  ∃ id c',
    DB.add_item c (Some r) name hint image_path = inr (id, c')
    ∧ (id ∉ item_id <$> DB.items c)
    ∧ DB.list_items c' (Some r)
      = DB.list_items c (Some r) ++ [(id, name, hint, image_path)]
    ∧ (∀ r', r' ≠ r → DB.list_items c' (Some r') = DB.list_items c (Some r')).
Proof.
  intros Hc.
  destruct (add_item_appends c (Some r) name hint image_path Hc)
    as (id & c' & Hadd & _ & Hfresh & _ & _ & Hlist).
  exists id, c'. split; [done|]. split; [done|]. split.
  - rewrite Hlist. by rewrite decide_True.
  - intros r' Hne. rewrite Hlist, decide_False, app_nil_r; [done|].
    simpl. congruence.
Qed.

Lemma add_item_listed_witness :
  reachable demo_db
  ∧ ∃ id c',
    DB.add_item demo_db (Some 1%Z) "D" "d" "" = inr (id, c')
    ∧ (id ∉ item_id <$> DB.items demo_db)
    ∧ DB.list_items c' (Some 1%Z)
      = DB.list_items demo_db (Some 1%Z) ++ [(id, "D", "d", "")]
    ∧ (∀ r', r' ≠ 1%Z →
         DB.list_items c' (Some r') = DB.list_items demo_db (Some r')).
Proof.
  split; [apply demo_db_reachable|].
  apply (add_item_listed demo_db 1%Z "D" "d" ""). apply demo_db_reachable.
Defined.

(** X4: [add_item] does not look for the room: on a connection of the
    program it stores an item for a room id that no room has, and the
    store then holds an orphan. *)
Theorem add_item_missing_room c r name hint image_path :
  reachable c →
  r ∉ room_id <$> DB.rooms c →
  ∃ id c',
    DB.add_item c (Some r) name hint image_path = inr (id, c')
    ∧ ItemRow id (Some r) name hint image_path ∈ DB.items c'
    ∧ DB.rooms c' = DB.rooms c
    ∧ ¬ no_orphans c'.
Proof.
  intros Hc Hr. unfold DB.add_item.
  rewrite (reachable_foreign_keys_off c Hc). simpl.
  do 2 eexists. split; [reflexivity|]. simpl.
  assert (Hin : ItemRow (DB.seq_items c + 1) (Some r) name hint image_path
                ∈ DB.items c ++ [ItemRow (DB.seq_items c + 1) (Some r)
                                         name hint image_path]).
  { apply elem_of_app. right. by left. }
  split; [done|]. split; [done|].
  intros Hno. apply Hr. by apply (Hno _ r Hin).
Qed.

Lemma add_item_missing_room_witness :
  reachable demo_db ∧ (9%Z ∉ room_id <$> DB.rooms demo_db)
  ∧ ∃ id c',
    DB.add_item demo_db (Some 9%Z) "D" "d" "" = inr (id, c')
    ∧ ItemRow id (Some 9%Z) "D" "d" "" ∈ DB.items c'
    ∧ DB.rooms c' = DB.rooms demo_db
    ∧ ¬ no_orphans c'.
Proof.
  split; [apply demo_db_reachable|].
  split; [apply (bool_decide_unpack _); by vm_compute|].
  apply (add_item_missing_room demo_db 9%Z "D" "d" "");
    [apply demo_db_reachable|apply (bool_decide_unpack _); by vm_compute].
Defined.

(** X5: on a connection of the program [delete_item] takes exactly the
    row with that id out of every listing and touches neither rooms nor
    progress; for an id that no item has it changes nothing at all. *)
Theorem delete_item_listed c iid :
  reachable c →
  (∀ rid, DB.list_items (DB.delete_item c iid) rid
          = filter (λ v : item_view, v.1.1.1 ≠ iid) (DB.list_items c rid))
  ∧ DB.rooms (DB.delete_item c iid) = DB.rooms c
  ∧ DB.progress (DB.delete_item c iid) = DB.progress c
  ∧ (iid ∉ item_id <$> DB.items c → DB.delete_item c iid = c).
Proof.
  intros Hc. split; [|split; [done|split; [done|]]].
  - intros rid.
    rewrite !list_items_ascending
      by (apply reachable_rowid_order; eauto using reachable).
    simpl. rewrite filter_fmap_comm. f_equal.
    rewrite !list_filter_filter. apply list_filter_iff.
    intros it. simpl. tauto.
  - intros Habsent. unfold DB.delete_item, DB.set_items.
    rewrite filter_all; [by destruct c|].
    intros it Hit Hid. apply Habsent. rewrite <- Hid.
    by apply list_elem_of_fmap_2.
Qed.

Lemma delete_item_listed_witness :
  reachable demo_db
  ∧ (∀ rid, DB.list_items (DB.delete_item demo_db 2) rid
          = filter (λ v : item_view, v.1.1.1 ≠ 2%Z) (DB.list_items demo_db rid))
  ∧ DB.rooms (DB.delete_item demo_db 2) = DB.rooms demo_db
  ∧ DB.progress (DB.delete_item demo_db 2) = DB.progress demo_db
  ∧ (2%Z ∉ item_id <$> DB.items demo_db → DB.delete_item demo_db 2 = demo_db).
Proof.
  split; [apply demo_db_reachable|].
  apply (delete_item_listed demo_db 2%Z). apply demo_db_reachable.
Defined.

(** *** [delete_room] *)

(** X6: on a connection of the program [delete_room] takes exactly the
    room with that id out of [list_rooms] and leaves progress alone; for
    an id that no room has it changes nothing at all. *)
Theorem delete_room_listed c rid :
  reachable c →
  DB.list_rooms (DB.delete_room c rid)
  = filter (λ r, room_id r ≠ rid) (DB.list_rooms c)
  ∧ DB.progress (DB.delete_room c rid) = DB.progress c
  ∧ (rid ∉ room_id <$> DB.rooms c → DB.delete_room c rid = c).
Proof.
  intros Hc. split; [|split; [done|]].
  - rewrite !list_rooms_ascending
      by (apply reachable_rowid_order; eauto using reachable).
    done.
  - intros Habsent.
    pose proof (reachable_foreign_keys_off c Hc) as Hoff.
    unfold DB.delete_room. rewrite filter_all.
    + destruct c as [fk rs its ps sr si sp]. simpl in *. by rewrite Hoff.
    + intros r Hr Hid. apply Habsent. rewrite <- Hid.
      by apply list_elem_of_fmap_2.
Qed.

Lemma delete_room_listed_witness :
  reachable demo_db
  ∧ DB.list_rooms (DB.delete_room demo_db 1)
    = filter (λ r, room_id r ≠ 1%Z) (DB.list_rooms demo_db)
  ∧ DB.progress (DB.delete_room demo_db 1) = DB.progress demo_db
  ∧ (1%Z ∉ room_id <$> DB.rooms demo_db → DB.delete_room demo_db 1 = demo_db).
Proof.
  split; [apply demo_db_reachable|].
  apply (delete_room_listed demo_db 1%Z). apply demo_db_reachable.
Defined.

(** *** What a history of statements keeps *)

Lemma db_step_progress c c' :
  db_step c c' → DB.progress c `prefix_of` DB.progress c'.
Proof.
  intros Hstep.
  destruct Hstep as [c name d id c' Hadd|c rid|c rid n h p id c' Hadd|c iid
                     |c now iid]; simpl; try done.
  - unfold DB.add_room in Hadd. destruct (decide _); [done|].
    by injection Hadd as <- <-.
  - unfold DB.add_item in Hadd. destruct (_ && _); [done|].
    by injection Hadd as <- <-.
  - by apply prefix_app_r.
Qed.

(** X7: [progress] is append-only: whatever statements of [DB] run, in
    whatever order, the rows that were in [progress] stay, unchanged and
    in place, at the head of the table. *)
Theorem progress_append_only c c' :
  rtc db_step c c' → DB.progress c `prefix_of` DB.progress c'.
Proof.
  induction 1 as [c|c c1 c' Hstep _ IH]; [done|].
  etrans; [by apply db_step_progress|done].
Qed.

Lemma progress_append_only_witness :
  DB.progress (DB.log_seen demo_db 100 1) = [ProgressRow 1 1 100 ""]
  ∧ rtc db_step (DB.log_seen demo_db 100 1)
      (DB.delete_item
         (DB.log_seen (DB.delete_room (DB.log_seen demo_db 100 1) 1) 101 2) 1)
  ∧ DB.progress (DB.log_seen demo_db 100 1)
    `prefix_of`
    DB.progress
      (DB.delete_item
         (DB.log_seen (DB.delete_room (DB.log_seen demo_db 100 1) 1) 101 2) 1)
  ∧ DB.progress
      (DB.delete_item
         (DB.log_seen (DB.delete_room (DB.log_seen demo_db 100 1) 1) 101 2) 1)
    = [ProgressRow 1 1 100 ""; ProgressRow 2 2 101 ""].
Proof.
  assert (Hsteps : rtc db_step (DB.log_seen demo_db 100 1)
      (DB.delete_item
         (DB.log_seen (DB.delete_room (DB.log_seen demo_db 100 1) 1) 101 2) 1)).
  { eapply rtc_l; [apply step_delete_room|].
    eapply rtc_l; [apply step_log_seen|].
    eapply rtc_l; [apply step_delete_item|]. apply rtc_refl. }
  split; [reflexivity|]. split; [exact Hsteps|].
  split; [|reflexivity].
  apply (progress_append_only (DB.log_seen demo_db 100 1) _ Hsteps).
Defined.

Lemma db_step_items c c' :
  db_step c c' →
  (DB.seq_items c ≤ DB.seq_items c')%Z
  ∧ ∀ it, it ∈ DB.items c' →
          it ∈ DB.items c ∨ (DB.seq_items c < item_id it)%Z.
Proof.
  intros Hstep.
  destruct Hstep as [c name d id c' Hadd|c rid|c rid n h p id c' Hadd|c iid
                     |c now iid]; simpl.
  - unfold DB.add_room in Hadd. destruct (decide _); [done|].
    injection Hadd as <- <-. simpl. split; [lia|]. by left.
  - split; [lia|]. intros it Hit. left.
    destruct (DB.foreign_keys c); [|done].
    by apply list_elem_of_filter in Hit as [_ Hit].
  - unfold DB.add_item in Hadd. destruct (_ && _); [done|].
    injection Hadd as <- <-. simpl. split; [lia|].
    intros it [Hit| ->%list_elem_of_singleton]%elem_of_app; [by left|].
    right. simpl. lia.
  - split; [lia|]. intros it Hit. left.
    by apply list_elem_of_filter in Hit as [_ Hit].
  - split; [lia|]. by left.
Qed.

Lemma db_steps_items c c' :
  rtc db_step c c' →
  (DB.seq_items c ≤ DB.seq_items c')%Z
  ∧ ∀ it, it ∈ DB.items c' →
          it ∈ DB.items c ∨ (DB.seq_items c < item_id it)%Z.
Proof.
  induction 1 as [c|c c1 c' Hstep _ [IHseq IH]].
  - split; [lia|]. by left.
  - destruct (db_step_items c c1 Hstep) as [Hseq Hit1].
    split; [lia|]. intros it Hit.
    destruct (IH it Hit) as [Hin|Hnew]; [|right; lia].
    destruct (Hit1 it Hin) as [?|?]; [by left|by right].
Qed.

(** X8: item ids are never reused: after any further statements of
    [DB], deletions and insertions included, an item of the store either
    is the very item that was stored earlier, with the same room, name,
    hint and image path, or carries another id than that item did. *)
Theorem item_id_never_reused c c' it it' :
  db_wf c → rtc db_step c c' →
  it ∈ DB.items c → it' ∈ DB.items c' →
  it' = it ∨ item_id it' ≠ item_id it.
Proof.
  intros Hwf Hsteps Hit Hit'.
  destruct (decide (item_id it' = item_id it)) as [Hid|Hid]; [left|by right].
  destruct (db_steps_items c c' Hsteps) as [_ Hold].
  pose proof (wf_item_seq c Hwf) as Hseq. rewrite Forall_forall in Hseq.
  destruct (Hold it' Hit') as [Hin|Hnew].
  - pose proof (wf_item_ids c Hwf) as Hnd.
    apply list_elem_of_lookup in Hit as [i Hi].
    apply list_elem_of_lookup in Hin as [j Hj].
    assert (j = i) as ->; [|congruence].
    eapply NoDup_lookup; [exact Hnd| |].
    + rewrite list_lookup_fmap, Hj. reflexivity.
    + rewrite list_lookup_fmap, Hi. simpl. by rewrite Hid.
  - specialize (Hseq it Hit). simpl in Hseq. lia.
Qed.

Lemma item_id_never_reused_witness :
  db_wf demo_db
  ∧ rtc db_step demo_db
      (DB.set_items (DB.delete_item demo_db 3)
         (DB.items (DB.delete_item demo_db 3)
            ++ [ItemRow 4 (Some 1%Z) "D" "d" ""]) 4)
  ∧ DB.add_item (DB.delete_item demo_db 3) (Some 1%Z) "D" "d" ""
    = inr (4%Z,
           DB.set_items (DB.delete_item demo_db 3)
             (DB.items (DB.delete_item demo_db 3)
                ++ [ItemRow 4 (Some 1%Z) "D" "d" ""]) 4)
  ∧ ItemRow 3 (Some 1%Z) "C" "c" "" ∈ DB.items demo_db
  ∧ ItemRow 4 (Some 1%Z) "D" "d" ""
    ∈ DB.items
        (DB.set_items (DB.delete_item demo_db 3)
           (DB.items (DB.delete_item demo_db 3)
              ++ [ItemRow 4 (Some 1%Z) "D" "d" ""]) 4)
  ∧ (ItemRow 4 (Some 1%Z) "D" "d" "" = ItemRow 3 (Some 1%Z) "C" "c" ""
     ∨ item_id (ItemRow 4 (Some 1%Z) "D" "d" "")
       ≠ item_id (ItemRow 3 (Some 1%Z) "C" "c" "")).
Proof.
  assert (Hadd :
    DB.add_item (DB.delete_item demo_db 3) (Some 1%Z) "D" "d" ""
    = inr (4%Z,
           DB.set_items (DB.delete_item demo_db 3)
             (DB.items (DB.delete_item demo_db 3)
                ++ [ItemRow 4 (Some 1%Z) "D" "d" ""]) 4)) by reflexivity.
  assert (Hsteps : rtc db_step demo_db
      (DB.set_items (DB.delete_item demo_db 3)
         (DB.items (DB.delete_item demo_db 3)
            ++ [ItemRow 4 (Some 1%Z) "D" "d" ""]) 4)).
  { eapply rtc_l; [apply (step_delete_item demo_db 3)|].
    eapply rtc_l; [exact (step_add_item _ _ _ _ _ _ _ Hadd)|].
    apply rtc_refl. }
  assert (Hin : ItemRow 3 (Some 1%Z) "C" "c" "" ∈ DB.items demo_db).
  { right. right. by left. }
  assert (Hin' : ItemRow 4 (Some 1%Z) "D" "d" ""
    ∈ DB.items
        (DB.set_items (DB.delete_item demo_db 3)
           (DB.items (DB.delete_item demo_db 3)
              ++ [ItemRow 4 (Some 1%Z) "D" "d" ""]) 4)).
  { right. right. by left. }
  split; [apply demo_db_wf|]. split; [exact Hsteps|].
  split; [exact Hadd|]. split; [exact Hin|]. split; [exact Hin'|].
  exact (item_id_never_reused demo_db _ _ _ demo_db_wf Hsteps Hin Hin').
Defined.

(** * Further properties of the generator *)

Lemma pulls_finished n c g :
  pulls n c g GenFinished = (replicate n StopIteration, GenFinished, g).
Proof.
  induction n as [|n IH]; [done|]. cbn [pulls gen_next]. by rewrite IH.
Qed.

Lemma pulls_exhausted n c g its sh :
  (pulls n c g (GenSuspended its [] sh false)).1.1 = replicate n StopIteration.
Proof.
  destruct n as [|n]; [done|]. cbn [pulls gen_next].
  by rewrite pulls_finished.
Qed.

Lemma consume_more_fuel fuel fuel' c g s r :
  consume fuel c g s = Some r → fuel ≤ fuel' → consume fuel' c g s = Some r.
Proof.
  revert fuel' g s r. induction fuel as [|fuel IH]; intros fuel' g s r; [done|].
  intros Hr Hle. destruct fuel' as [|fuel']; [lia|].
  cbn [consume] in *.
  destruct (gen_next c g s) as [[[it| |] s'] g']; [|done|done].
  destruct (consume fuel c g' s') as [[out g'']|] eqn:Hrec; [|done].
  by rewrite (IH fuel' _ _ _ Hrec) by lia.
Qed.

(** X9: without [shuffle] the items come in the order of the query:
    consuming the generator gives exactly the fetched rows and draws no
    random number, and with [repeat] every block of pulls is again the
    fetched rows in that order. *)
Theorem practice_generator_unshuffled c rooms g :
  fetch_items c rooms ≠ [] →
  (∀ fuel, length (fetch_items c rooms) < fuel →
     consume fuel c g (practice_generator rooms false false)
     = Some (fetch_items c rooms, g))
  ∧ (∀ k, block k (length (fetch_items c rooms)) c g
                (practice_generator rooms false true)
          = Yield <$> fetch_items c rooms).
Proof.
  intros Hne. set (its := fetch_items c rooms) in *. split.
  - intros [|fuel] Hfuel; [lia|].
    destruct (start_round_yields its false false g Hne)
      as (it & pending & g' & Hr & _ & Hid).
    destruct (Hid eq_refl) as [Hits ->].
    cbn [consume]. unfold practice_generator.
    rewrite (gen_next_round_start c its false false _ g Hne), Hr.
    + rewrite consume_pending; [by rewrite Hits|].
      rewrite <- Hits in Hfuel. simpl in Hfuel. lia.
    + left. by exists rooms.
  - intros k.
    assert (Hs : round_start c its false true
                   (practice_generator rooms false true)).
    { left. by exists rooms. }
    destruct (pulls_rounds c its false _ g k Hne Hs)
      as (ps & s' & g' & Hps & Hs' & _).
    destruct (pulls_round c its false true s' g' Hne Hs')
      as (blk & g'' & Hblk & _ & Hid).
    rewrite (Hid eq_refl) in Hblk. unfold block.
    replace (S k * length its) with (k * length its + length its) by lia.
    rewrite pulls_app, Hps, Hblk. simpl.
    pose proof (pulls_length (k * length its) c g
                  (practice_generator rooms false true)) as Hlen.
    rewrite Hps in Hlen. simpl in Hlen.
    rewrite drop_app_length' by done.
    apply take_ge. by rewrite length_fmap.
Qed.

Lemma practice_generator_unshuffled_witness :
  fetch_items demo_db None ≠ []
  ∧ (∀ fuel, length (fetch_items demo_db None) < fuel →
     consume fuel demo_db demo_rng (practice_generator None false false)
     = Some (fetch_items demo_db None, demo_rng))
  ∧ (∀ k, block k (length (fetch_items demo_db None)) demo_db demo_rng
                (practice_generator None false true)
          = Yield <$> fetch_items demo_db None).
Proof.
  split; [by vm_compute|].
  apply (practice_generator_unshuffled demo_db None demo_rng). by vm_compute.
Defined.

Lemma gen_next_entered c c' g s :
  entered s →
  gen_next c' g s = gen_next c g s ∧ entered (gen_next c g s).1.2.
Proof.
  destruct s as [rooms sh rp|its [|it pending] sh rp|]; [done|..]; intros _;
    (split; [done|]); simpl; [|done|done].
  destruct rp; [|done]. unfold start_round.
  destruct (if sh then shuffle its g else (its, g)) as [[|it pending] g'];
    done.
Qed.

Lemma gen_next_enters c g s : entered (gen_next c g s).1.2.
Proof.
  destruct s as [rooms sh rp|its pending sh rp|].
  - simpl. destruct (fetch_items c rooms) as [|it its]; [done|].
    unfold start_round.
    destruct (if sh then shuffle (it :: its) g else (it :: its, g))
      as [[|it' pending] g']; [by destruct rp|done].
  - by apply gen_next_entered.
  - done.
Qed.

Lemma pulls_entered n c c' g s :
  entered s → pulls n c' g s = pulls n c g s.
Proof.
  revert g s. induction n as [|n IH]; intros g s Hs; [done|].
  cbn [pulls]. destruct (gen_next_entered c c' g s Hs) as [-> Hs'].
  destruct (gen_next c g s) as [[p s'] g']. simpl in Hs'.
  by rewrite (IH g' s' Hs').
Qed.

(** X10: the generator reads the store once, at its first [next]: the
    pulls after the first are the same whatever the store has become in
    between (items added, deleted or moved by then are not seen). *)
Theorem practice_generator_snapshot c c' g rooms sh rp n :
  pulls n c' (gen_next c g (practice_generator rooms sh rp)).2
          (gen_next c g (practice_generator rooms sh rp)).1.2
  = pulls n c (gen_next c g (practice_generator rooms sh rp)).2
            (gen_next c g (practice_generator rooms sh rp)).1.2.
Proof. apply pulls_entered, gen_next_enters. Qed.

(** X11: over a single item, with [repeat], every pull hands out that
    item, shuffled or not, and no random number is drawn. *)
Theorem practice_generator_single c rooms sh g it n :
  fetch_items c rooms = [it] →
  pulls n c g (practice_generator rooms sh true)
  = (replicate n (Yield it),
     match n with
     | 0 => practice_generator rooms sh true
     | S _ => GenSuspended [it] [] sh true
     end,
     g).
Proof.
  intros Hf.
  assert (Hround : start_round [it] sh true g
                   = (Yield it, GenSuspended [it] [] sh true, g)).
  { by destruct sh. }
  assert (Hrest : ∀ m, pulls m c g (GenSuspended [it] [] sh true)
                       = (replicate m (Yield it),
                          GenSuspended [it] [] sh true, g)).
  { induction m as [|m IH]; [done|].
    cbn [pulls gen_next]. by rewrite Hround, IH. }
  destruct n as [|n]; [done|].
  cbn [pulls]. unfold practice_generator. cbn [gen_next].
  by rewrite Hf, Hround, Hrest.
Qed.

Lemma practice_generator_single_witness :
  fetch_items (DB.delete_item (DB.delete_item demo_db 2) 3) None
  = [ItemRow 1 (Some 1%Z) "A" "a" ""]
  ∧ pulls 5 (DB.delete_item (DB.delete_item demo_db 2) 3) demo_rng
          (practice_generator None true true)
    = (replicate 5 (Yield (ItemRow 1 (Some 1%Z) "A" "a" "")),
       GenSuspended [ItemRow 1 (Some 1%Z) "A" "a" ""] [] true true,
       demo_rng).
Proof.
  split; [reflexivity|].
  apply (practice_generator_single
           (DB.delete_item (DB.delete_item demo_db 2) 3) None true demo_rng
           (ItemRow 1 (Some 1%Z) "A" "a" "") 5).
  reflexivity.
Defined.

(** X12: without [repeat] the generator, once through the items, stays
    exhausted: every further [next] raises [StopIteration] and no item
    is handed out a second time. *)
Theorem practice_generator_stays_exhausted c rooms sh g k :
  fetch_items c rooms ≠ [] →
  ∃ out,
    out ≡ₚ fetch_items c rooms
    ∧ (pulls (length (fetch_items c rooms) + k) c g
             (practice_generator rooms sh false)).1.1
      = (Yield <$> out) ++ replicate k StopIteration.
Proof.
  intros Hne. set (its := fetch_items c rooms) in *.
  assert (Hs : round_start c its sh false (practice_generator rooms sh false)).
  { left. by exists rooms. }
  destruct (pulls_round c its sh false _ g Hne Hs)
    as (out & g' & Hout & Hp & _).
  exists out. split; [done|].
  rewrite pulls_app, Hout.
  pose proof (pulls_exhausted k c g' its sh) as Hk.
  destruct (pulls k c g' (GenSuspended its [] sh false)) as [[qs s''] g''].
  simpl in *. by rewrite Hk.
Qed.

Lemma practice_generator_stays_exhausted_witness :
  fetch_items demo_db None ≠ []
  ∧ ∃ out,
    out ≡ₚ fetch_items demo_db None
    ∧ (pulls (length (fetch_items demo_db None) + 4) demo_db demo_rng
             (practice_generator None true false)).1.1
      = (Yield <$> out) ++ replicate 4 StopIteration.
Proof.
  split; [by vm_compute|].
  apply (practice_generator_stays_exhausted demo_db None true demo_rng 4).
  by vm_compute.
Defined.

(** X13: a session over chosen rooms shows the stored items of these
    rooms and no others.  Consuming the generator made with a non-empty
    list of room ids ends, with any fuel beyond the number of stored
    items, and an item is in what it returns exactly when it is stored
    with one of these ids as its room; items without a room are never in
    it.  Whatever fuel makes it return, it returns that same list. *)
Theorem practice_generator_scope c r rs sh g :
  ∃ out g',
    (∀ fuel, length (DB.items c) < fuel →
       consume fuel c g (practice_generator (Some (r :: rs)) sh false)
       = Some (out, g'))
    ∧ (∀ it, it ∈ out ↔
             it ∈ DB.items c
             ∧ ∃ r', item_room_id it = Some r' ∧ r' ∈ r :: rs)
    ∧ (∀ fuel out1 g1,
         consume fuel c g (practice_generator (Some (r :: rs)) sh false)
         = Some (out1, g1) →
         out1 = out).
Proof.
  destruct (consume_whole c (Some (r :: rs)) sh g)
    as (out & g' & Hrun & Hp & _).
  pose proof (sublist_length _ _ (fetch_items_sublist c (Some (r :: rs))))
    as Hlen.
  exists out, g'. split; [|split].
  - intros fuel Hfuel. apply Hrun. lia.
  - intros it. rewrite Hp.
    unfold fetch_items. cbn [truthy default].
    rewrite list_elem_of_filter. unfold room_in.
    destruct (item_room_id it) as [r'|].
    + split.
      * intros [Hr' Hit]. split; [done|]. by exists r'.
      * intros [Hit (r'' & [= <-] & Hr')]. by split.
    + split; [by intros [[] _]|]. by intros [_ (r'' & [=] & _)].
  - intros fuel out1 g1 Hout1.
    pose proof (consume_more_fuel _ (fuel + S (length (DB.items c)))
                  c g _ _ Hout1 ltac:(lia)) as H1.
    rewrite Hrun in H1 by lia. by injection H1 as <- _.
Qed.

Lemma practice_generator_scope_witness :
  ∃ out g',
    consume 4 demo_db demo_rng (practice_generator (Some [1%Z]) true false)
    = Some (out, g')
    ∧ length out = 3
    ∧ ∀ it, it ∈ out ↔
          it ∈ DB.items demo_db
          ∧ ∃ r', item_room_id it = Some r' ∧ r' ∈ [1%Z].
Proof.
  destruct (practice_generator_scope demo_db 1%Z [] true demo_rng)
    as (out & g' & Hrun & Hscope & _).
  exists out, g'.
  pose proof (Hrun 4 ltac:(simpl; lia)) as Hout.
  split; [exact Hout|]. split; [|exact Hscope].
  vm_compute in Hout. by injection Hout as <- _.
Defined.

(** * Further properties of the practice controls *)

Lemma next_until_finished_pending its sh clock g pending :
  ∀ a t fuel,
    practice_gen a = Some (GenSuspended its pending sh false) →
    length pending < fuel →
    ∃ a',
      next_until_finished fuel t clock a g = Some (pending, a', g)
      ∧ practice_gen a' = None
      ∧ practice_status a' = StatusStopped
      ∧ progress_item_id <$> DB.progress (db a')
        = (progress_item_id <$> DB.progress (db a)) ++ (item_id <$> pending)
      ∧ DB.rooms (db a') = DB.rooms (db a)
      ∧ DB.items (db a') = DB.items (db a)
      ∧ MemoryPalaceApp.rooms a' = MemoryPalaceApp.rooms a
      ∧ rooms_sel a' = rooms_sel a.
Proof.
  induction pending as [|it pending IH]; intros a t fuel Hgen Hfuel.
  - destruct fuel as [|fuel]; [simpl in Hfuel; lia|].
    cbn [next_until_finished]. unfold next_practice. rewrite Hgen.
    cbn [gen_next]. eexists. split; [reflexivity|].
    simpl. by rewrite app_nil_r.
  - destruct fuel as [|fuel]; [simpl in Hfuel; lia|].
    cbn [next_until_finished]. unfold next_practice. rewrite Hgen.
    cbn [gen_next].
    edestruct (IH (App (DB.log_seen (db a) (clock t) (item_id it))
                       (MemoryPalaceApp.rooms a) (rooms_sel a)
                       (Some (GenSuspended its pending sh false))
                       (StatusLastItem (item_name it))
                       (CanvasPractice (item_name it) (item_hint it)
                                       (item_image_path it)))
                  (S t) fuel)
      as (a' & Hrun & Hgen' & Hst & Hlog & Hrooms & Hitems & Hlist & Hsel);
      [done|simpl in Hfuel; lia|].
    exists a'. rewrite Hrun. split; [done|]. split; [done|]. split; [done|].
    split; [|done].
    rewrite Hlog. simpl. rewrite fmap_app. simpl. by rewrite <- app_assoc.
Qed.

(** X14: a whole session.  With a scope that has items, [start_practice]
    followed by "next" until the end-of-sequence notice shows every item
    of the scope exactly once, appends to [progress] exactly one row per
    item shown, in the order shown, and ends without a generator, with
    rooms, items and the listbox as they were. *)
Theorem session_logs_each_item a g clock rooms fuel :
  selected_rooms a = inr rooms →
  fetch_items (db a) rooms ≠ [] →
  length (fetch_items (db a) rooms) ≤ fuel →
  ∃ it a1 g1 shown a2,
    start_practice a g (clock 0) = inr (Shown it, a1, g1)
    ∧ next_until_finished fuel 1 clock a1 g1 = Some (shown, a2, g1)
    ∧ it :: shown ≡ₚ fetch_items (db a) rooms
    ∧ progress_item_id <$> DB.progress (db a2)
      = (progress_item_id <$> DB.progress (db a))
          ++ (item_id <$> it :: shown)
    ∧ practice_gen a2 = None
    ∧ practice_status a2 = StatusStopped
    ∧ DB.rooms (db a2) = DB.rooms (db a)
    ∧ DB.items (db a2) = DB.items (db a)
    ∧ MemoryPalaceApp.rooms a2 = MemoryPalaceApp.rooms a.
Proof.
  intros Hsel Hne Hfuel.
  destruct (start_round_yields _ true false g Hne)
    as (it & pending & g1 & Hr & Hp & _).
  rewrite (start_practice_unfold a g (clock 0) rooms Hsel).
  unfold next_practice, practice_generator. cbn [practice_gen db gen_next].
  destruct (fetch_items (db a) rooms) as [|it0 its0] eqn:Hf; [done|].
  rewrite Hr.
  edestruct (next_until_finished_pending (it0 :: its0) true clock g1 pending
               (App (DB.log_seen (db a) (clock 0) (item_id it))
                    (MemoryPalaceApp.rooms a) (rooms_sel a)
                    (Some (GenSuspended (it0 :: its0) pending true false))
                    (StatusLastItem (item_name it))
                    (CanvasPractice (item_name it) (item_hint it)
                                    (item_image_path it)))
               1 fuel)
    as (a2 & Hrun & Hgen & Hst & Hlog & Hrooms & Hitems & Hlist & _); [done| |].
  { apply Permutation_length in Hp. simpl in *. lia. }
  exists it. eexists. exists g1, pending, a2.
  split; [reflexivity|]. split; [exact Hrun|]. split; [done|].
  split; [|done].
  rewrite Hlog. simpl. rewrite fmap_app. simpl. by rewrite <- app_assoc.
Qed.

Lemma session_logs_each_item_witness :
  selected_rooms demo_app = inr (Some [1%Z])
  ∧ fetch_items (db demo_app) (Some [1%Z]) ≠ []
  ∧ length (fetch_items (db demo_app) (Some [1%Z])) ≤ 3
  ∧ ∃ it a1 g1 shown a2,
    start_practice demo_app demo_rng (demo_clock 0)
    = inr (Shown it, a1, g1)
    ∧ next_until_finished 3 1 demo_clock a1 g1 = Some (shown, a2, g1)
    ∧ it :: shown ≡ₚ fetch_items (db demo_app) (Some [1%Z])
    ∧ progress_item_id <$> DB.progress (db a2)
      = (progress_item_id <$> DB.progress (db demo_app))
          ++ (item_id <$> it :: shown)
    ∧ practice_gen a2 = None
    ∧ practice_status a2 = StatusStopped
    ∧ DB.rooms (db a2) = DB.rooms (db demo_app)
    ∧ DB.items (db a2) = DB.items (db demo_app)
    ∧ MemoryPalaceApp.rooms a2 = MemoryPalaceApp.rooms demo_app.
Proof.
  split; [reflexivity|]. split; [by vm_compute|]. split; [by vm_compute|].
  apply (session_logs_each_item demo_app demo_rng demo_clock
           (Some [1%Z]) 3);
    [reflexivity|by vm_compute|by vm_compute].
Defined.

Lemma next_practice_rooms a g now :
  DB.rooms (db (next_practice a g now).1.2) = DB.rooms (db a)
  ∧ MemoryPalaceApp.rooms (next_practice a g now).1.2 = MemoryPalaceApp.rooms a.
Proof.
  unfold next_practice. destruct (practice_gen a) as [gen|]; [|done].
  by destruct (gen_next (db a) g gen) as [[[it| |] gen'] g'].
Qed.

Lemma in_sync_next_practice a g now :
  in_sync a → in_sync (next_practice a g now).1.2.
Proof.
  unfold in_sync, DB.list_rooms.
  destruct (next_practice_rooms a g now) as [-> ->]. done.
Qed.

(** X15: the practice controls and the deletion of a room keep the
    listbox in step with the store: if it shows the rooms of the store
    before [stop_practice], [next_practice], [start_practice] or
    [delete_selected_room], it does so afterwards. *)
Theorem in_sync_kept a g now :
  in_sync a →
  in_sync (stop_practice a)
  ∧ in_sync (next_practice a g now).1.2
  ∧ (∀ r, start_practice a g now = inr r → in_sync r.1.2)
  ∧ (∀ confirm a', delete_selected_room a confirm = inr a' → in_sync a').
Proof.
  intros Hsync. split; [done|]. split; [by apply in_sync_next_practice|].
  split.
  - intros r. unfold start_practice.
    destruct (selected_rooms a) as [e|rooms]; [done|].
    intros [= <-]. by apply in_sync_next_practice.
  - intros confirm a'. unfold delete_selected_room.
    destruct (rooms_sel a) as [idx|]; [|by intros [= <-]].
    destruct (MemoryPalaceApp.rooms a !! idx) as [r|]; [|done].
    destruct confirm; by intros [= <-].
Qed.

Lemma in_sync_kept_witness :
  in_sync demo_app
  ∧ in_sync (stop_practice demo_app)
  ∧ in_sync (next_practice demo_app demo_rng 100).1.2
  ∧ (∀ r, start_practice demo_app demo_rng 100 = inr r → in_sync r.1.2)
  ∧ (∀ confirm a', delete_selected_room demo_app confirm = inr a' →
                   in_sync a').
Proof.
  split; [reflexivity|].
  apply (in_sync_kept demo_app demo_rng 100). reflexivity.
Defined.

(** X16: while the listbox is in step with the store, the room
    [start_practice] passes to the generator is a room of the store. *)
Theorem selected_room_stored a rs r :
  in_sync a → selected_rooms a = inr (Some rs) → r ∈ rs →
  r ∈ room_id <$> DB.rooms (db a).
Proof.
  unfold in_sync, selected_rooms. intros Hsync Hsel Hr.
  destruct (rooms_sel a) as [idx|]; [|done].
  destruct (MemoryPalaceApp.rooms a !! idx) as [row|] eqn:Hidx; [|done].
  injection Hsel as <-. apply list_elem_of_singleton in Hr as ->.
  apply list_elem_of_fmap_2.
  rewrite <- (order_by_id_Permutation room_id (DB.rooms (db a))).
  fold (DB.list_rooms (db a)). rewrite <- Hsync.
  by eapply list_elem_of_lookup_2.
Qed.

Lemma selected_room_stored_witness :
  in_sync demo_app ∧ selected_rooms demo_app = inr (Some [1%Z])
  ∧ 1%Z ∈ [1%Z] ∧ 1%Z ∈ room_id <$> DB.rooms (db demo_app).
Proof.
  split; [reflexivity|]. split; [reflexivity|]. split; [by left|].
  apply (selected_room_stored demo_app [1%Z] 1%Z);
    [reflexivity|reflexivity|by left].
Defined.

(** X17: [delete_selected_room], once confirmed, removes the selected
    room from the store and from the listbox, clears the selection and
    the canvas, and leaves the running session alone: the generator is
    kept, and what "next" does then is what it would have done without
    the deletion.  Unconfirmed, it changes nothing. *)
Theorem delete_selected_room_confirmed a idx r :
  rooms_sel a = Some idx →
  MemoryPalaceApp.rooms a !! idx = Some r →
  delete_selected_room a false = inr a
  ∧ ∃ a',
      delete_selected_room a true = inr a'
      ∧ db a' = DB.delete_room (db a) (room_id r)
      ∧ (room_id r ∉ room_id <$> DB.rooms (db a'))
      ∧ (room_id r ∉ room_id <$> MemoryPalaceApp.rooms a')
      ∧ rooms_sel a' = None
      ∧ canvas a' = CanvasBlank
      ∧ practice_gen a' = practice_gen a
      ∧ (∀ s g now, practice_gen a = Some s → entered s →
           (next_practice a' g now).1.1 = (next_practice a g now).1.1).
Proof.
  intros Hsel Hidx. unfold delete_selected_room. rewrite Hsel, Hidx.
  split; [done|]. eexists. split; [reflexivity|]. simpl.
  assert (Hgone : room_id r ∉ room_id <$>
                    filter (λ r0, room_id r0 ≠ room_id r) (DB.rooms (db a))).
  { intros (r' & Hid & Hr')%list_elem_of_fmap.
    apply list_elem_of_filter in Hr' as [Hne _]. by apply Hne. }
  split; [done|]. split; [done|]. split.
  { unfold DB.list_rooms. simpl. by rewrite order_by_id_Permutation. }
  split; [done|]. split; [done|]. split; [done|].
  intros s g now Hs Hent. unfold next_practice. simpl. rewrite Hs.
  destruct (gen_next_entered (db a) (DB.delete_room (db a) (room_id r)) g s
              Hent) as [-> _].
  by destruct (gen_next (db a) g s) as [[[it| |] s'] g'].
Qed.

Lemma demo_session_started :
  ∃ g', start_practice demo_app demo_rng 100
        = inr (Shown (ItemRow 1 (Some 1%Z) "A" "a" ""), demo_session, g').
Proof. eexists. reflexivity. Qed.

Lemma delete_selected_room_confirmed_witness :
  rooms_sel demo_session = Some 0
  ∧ MemoryPalaceApp.rooms demo_session !! 0 = Some (RoomRow 1 "R1" "")
  ∧ delete_selected_room demo_session false = inr demo_session
  ∧ ∃ a',
      delete_selected_room demo_session true = inr a'
      ∧ db a' = DB.delete_room (db demo_session) 1
      ∧ (1%Z ∉ room_id <$> DB.rooms (db a'))
      ∧ (1%Z ∉ room_id <$> MemoryPalaceApp.rooms a')
      ∧ rooms_sel a' = None
      ∧ canvas demo_session = CanvasPractice "A" "a" ""
      ∧ canvas a' = CanvasBlank
      ∧ practice_gen a'
        = Some (GenSuspended
                  [ItemRow 1 (Some 1%Z) "A" "a" "";
                   ItemRow 2 (Some 1%Z) "B" "b" "";
                   ItemRow 3 (Some 1%Z) "C" "c" ""]
                  [ItemRow 3 (Some 1%Z) "C" "c" "";
                   ItemRow 2 (Some 1%Z) "B" "b" ""] true false)
      ∧ (next_practice a' demo_rng 101).1.1
        = Shown (ItemRow 3 (Some 1%Z) "C" "c" "")
      ∧ (next_practice a' demo_rng 101).1.1
        = (next_practice demo_session demo_rng 101).1.1.
Proof.
  split; [reflexivity|]. split; [reflexivity|].
  destruct (delete_selected_room_confirmed demo_session 0 (RoomRow 1 "R1" "")
              eq_refl eq_refl)
    as (Hkeep & a' & Hdel & Hdb & Hgone & Hlist & Hsel & Hcanvas & Hgen
        & Hnext).
  split; [exact Hkeep|]. exists a'.
  split; [exact Hdel|]. split; [exact Hdb|]. split; [exact Hgone|].
  split; [exact Hlist|]. split; [exact Hsel|]. split; [reflexivity|].
  split; [exact Hcanvas|]. split; [exact Hgen|].
  assert (Hsame : (next_practice a' demo_rng 101).1.1
                  = (next_practice demo_session demo_rng 101).1.1).
  { by eapply Hnext. }
  split; [|exact Hsame]. by rewrite Hsame.
Defined.

(** X18: [stop_practice] drops the items still to come without logging
    them: after [start_practice] on a scope with items and a stop, the
    store holds one new [progress] row, for the item shown, however many
    items were left, and "next" gives the notice asking to start a
    session and writes nothing. *)
Theorem stop_practice_discards a g now now' rooms :
  selected_rooms a = inr rooms →
  fetch_items (db a) rooms ≠ [] →
  ∃ it a1 g1,
    start_practice a g now = inr (Shown it, a1, g1)
    ∧ DB.progress (db (stop_practice a1))
      = DB.progress (db a)
          ++ [ProgressRow (DB.seq_progress (db a) + 1) (item_id it) now ""]
    ∧ next_practice (stop_practice a1) g1 now'
      = (InfoStartFirst, stop_practice a1, g1)
    ∧ stop_practice (stop_practice a1) = stop_practice a1.
Proof.
  intros Hsel Hne.
  rewrite (start_practice_unfold a g now rooms Hsel).
  unfold next_practice at 1, practice_generator.
  cbn [practice_gen db gen_next].
  destruct (start_round_yields _ true false g Hne)
    as (it & pending & g1 & Hr & _ & _).
  destruct (fetch_items (db a) rooms) as [|it0 its0] eqn:Hf; [done|].
  rewrite Hr. by do 3 eexists.
Qed.

Lemma stop_practice_discards_witness :
  selected_rooms demo_app = inr (Some [1%Z])
  ∧ fetch_items (db demo_app) (Some [1%Z]) ≠ []
  ∧ ∃ it a1 g1,
    start_practice demo_app demo_rng 100 = inr (Shown it, a1, g1)
    ∧ DB.progress (db (stop_practice a1))
      = DB.progress (db demo_app)
          ++ [ProgressRow (DB.seq_progress (db demo_app) + 1) (item_id it)
                          100 ""]
    ∧ next_practice (stop_practice a1) g1 101
      = (InfoStartFirst, stop_practice a1, g1)
    ∧ stop_practice (stop_practice a1) = stop_practice a1.
Proof.
  split; [reflexivity|]. split; [by vm_compute|].
  apply (stop_practice_discards demo_app demo_rng 100 101 (Some [1%Z]));
    [reflexivity|by vm_compute].
Defined.

(** * The room dialog and the start of the program *)

(** X19: [ok] of the room dialog on a connection of the program.  With
    an empty name nothing changes.  With the name of a stored room the
    store is left as it is and the error is reported.  With a new name
    the room is stored under an id no room had, the listbox shows the
    rooms listed before followed by the new one, and nothing is selected
    in it. *)
Theorem add_room_dialog_ok_cases a name description :
  reachable (db a) →
  (name = "" → add_room_dialog_ok a name description = (WarnNameEmpty, a))
  ∧ (name ≠ "" → name ∈ room_name <$> DB.rooms (db a) →
     add_room_dialog_ok a name description
     = (ErrorNameTaken, refresh_rooms a)
     ∧ db (refresh_rooms a) = db a)
  ∧ (name ≠ "" → name ∉ room_name <$> DB.rooms (db a) →
     ∃ id a',
       add_room_dialog_ok a name description = (DialogClosed, a')
       ∧ MemoryPalaceApp.rooms a'
         = DB.list_rooms (db a) ++ [RoomRow id name description]
       ∧ (id ∉ room_id <$> DB.rooms (db a))
       ∧ rooms_sel a' = None
       ∧ DB.items (db a') = DB.items (db a)
       ∧ DB.progress (db a') = DB.progress (db a)
       ∧ practice_gen a' = practice_gen a).
Proof.
  intros Hc. unfold add_room_dialog_ok. split; [|split].
  - intros ->. done.
  - intros Hne Hin. rewrite decide_False by done.
    unfold DB.add_room. by rewrite decide_True.
  - intros Hne Hnew. rewrite decide_False by done.
    destruct (DB.add_room (db a) name description) as [e|[id c']] eqn:Hadd.
    { unfold DB.add_room in Hadd. by rewrite decide_False in Hadd. }
    assert (Hc' : reachable c')
      by (eapply reach_add_room; [exact Hc|exact Hadd]).
    exists id. eexists. split; [reflexivity|]. simpl.
    rewrite !list_rooms_ascending by by apply reachable_rowid_order.
    pose proof (wf_room_seq _ (reachable_wf _ Hc)) as Hseq.
    unfold DB.add_room in Hadd. rewrite decide_False in Hadd by done.
    injection Hadd as <- <-. simpl. repeat split.
    intros (r & Hid & Hr)%list_elem_of_fmap.
    rewrite Forall_forall in Hseq. specialize (Hseq r Hr). simpl in Hseq. lia.
Qed.

Lemma add_room_dialog_ok_cases_witness :
  reachable (db demo_app)
  ∧ add_room_dialog_ok demo_app "R1" "" = (ErrorNameTaken, refresh_rooms demo_app)
  ∧ ∃ id a',
       add_room_dialog_ok demo_app "R2" "" = (DialogClosed, a')
       ∧ MemoryPalaceApp.rooms a'
         = DB.list_rooms (db demo_app) ++ [RoomRow id "R2" ""].
Proof.
  destruct (add_room_dialog_ok_cases demo_app "R1" "" demo_db_reachable)
    as (_ & Htaken & _).
  destruct (add_room_dialog_ok_cases demo_app "R2" "" demo_db_reachable)
    as (_ & _ & Hnew).
  split; [apply demo_db_reachable|]. split.
  - apply Htaken; [done|by left].
  - destruct Hnew as (id & a' & Hok & Hrooms & _).
    + done.
    + apply (bool_decide_unpack _). by vm_compute.
    + by exists id, a'.
Defined.

Lemma order_by_id_nil {A} (key : A → Z) (l : list A) :
  order_by_id key l = [] ↔ l = [].
Proof.
  split; [|by intros ->].
  intros Hnil. apply Permutation_nil_r.
  by rewrite <- (order_by_id_Permutation key l), Hnil.
Qed.

(** X20: the start of the program never fails and fills an empty palace
    once: afterwards the store has a room; a store that had rooms is left
    as it was; a store without rooms gets exactly one room and, besides
    the items it had, one item of that room; and running the start again
    changes nothing. *)
Theorem bootstrap_once c example_img img_exists :
  ∃ c',
    bootstrap c example_img img_exists = inr c'
    ∧ DB.rooms c' ≠ []
    ∧ bootstrap c' example_img img_exists = inr c'
    ∧ (DB.rooms c ≠ [] → c' = c)
    ∧ (DB.rooms c = [] →
       ∃ r it,
         DB.rooms c' = [r]
         ∧ DB.items c' = DB.items c ++ [it]
         ∧ item_room_id it = Some (room_id r)
         ∧ DB.progress c' = DB.progress c).
Proof.
  assert (Hkeep : ∀ c0, DB.rooms c0 ≠ [] →
            bootstrap c0 example_img img_exists = inr c0).
  { intros c0 Hne. unfold bootstrap.
    destruct (DB.list_rooms c0) as [|r rs] eqn:Hl; [|done].
    by apply order_by_id_nil in Hl. }
  destruct (DB.rooms c) as [|r0 rs0] eqn:Hrooms.
  - assert (Hl : DB.list_rooms c = []).
    { unfold DB.list_rooms. by rewrite Hrooms. }
    assert (Hrun : ∃ c', bootstrap c example_img img_exists = inr c'
              ∧ ∃ r it, DB.rooms c' = [r]
                  ∧ DB.items c' = DB.items c ++ [it]
                  ∧ item_room_id it = Some (room_id r)
                  ∧ DB.progress c' = DB.progress c).
    { unfold bootstrap. rewrite Hl. unfold DB.add_room. rewrite Hrooms.
      rewrite decide_False by (simpl; apply not_elem_of_nil).
      unfold DB.add_item. simpl.
      rewrite bool_decide_eq_false_2
        by (intros Hnot; apply Hnot; by left).
      rewrite andb_false_r.
      destruct img_exists; eexists; (split; [reflexivity|]);
        do 2 eexists; by repeat split. }
    destruct Hrun as (c' & Hb & r & it & Hr & Hi & Hrid & Hp).
    exists c'. split; [done|].
    assert (Hne : DB.rooms c' ≠ []) by by rewrite Hr.
    split; [done|]. split; [by apply Hkeep|]. split; [done|].
    intros _. by exists r, it.
  - assert (Hne : DB.rooms c ≠ []) by by rewrite Hrooms.
    exists c. rewrite Hkeep by done. by rewrite Hrooms.
Qed.

(** * The item list *)

Lemma split_on_digits d :
  split_on "-" (NilEmpty.string_of_uint d) = [NilEmpty.string_of_uint d].
Proof. induction d as [|d IH|d IH|d IH|d IH|d IH|d IH|d IH|d IH|d IH|d IH];
  [done|simpl; by rewrite IH..]. Qed.

Lemma split_on_nonneg_digits d :
  split_on "-" (NilZero.string_of_uint d) = [NilZero.string_of_uint d].
Proof.
  destruct d; [done|apply (split_on_digits (_ _))..].
Qed.

Lemma split_on_item_prefix s :
  split_on "-" s = [s] →
  split_on "-" ("item-" +:+ s) = ["item"; s]
  ∧ split_on "-" ("item-" +:+ String "-" s) = ["item"; ""; s].
Proof. intros Hs. simpl. change ("" +:+ s) with s. by rewrite Hs. Qed.

Lemma py_int_py_str z : py_int (py_str z) = Some z.
Proof.
  unfold py_int, py_str. rewrite NilZero.isi.
  - simpl. by rewrite DecimalZ.of_to.
  - destruct z as [|p|p]; [done| |done].
    simpl. intros [= Hnil]. by apply Unsigned.to_uint_nonnil in Hnil.
  - destruct z as [|p|p]; [done|done|].
    simpl. intros [= Hnil]. by apply Unsigned.to_uint_nonnil in Hnil.
Qed.

Lemma iid_item_id_nonneg id :
  (0 ≤ id)%Z → iid_item_id (item_iid id) = inr id.
Proof.
  intros Hpos. unfold iid_item_id, item_iid.
  assert (Hsplit : split_on "-" ("item-" +:+ py_str id)
                   = ["item"; py_str id]).
  { assert (Hd : ∃ d, py_str id = NilZero.string_of_uint d) by
      (destruct id as [|p|p]; [eexists; reflexivity..|lia]).
    destruct Hd as [d ->].
    apply split_on_item_prefix, split_on_nonneg_digits. }
  rewrite Hsplit. cbn [lookup list_lookup]. by rewrite py_int_py_str.
Qed.

(** X21: the [iid] of a tree row leads back to the id of its item: for an
    id that is not negative, [int(iid.split("-")[1])] of [f"item-{id}"]
    is the id.  For a negative id the text between the first two dashes
    is empty and [int] raises [ValueError]. *)
Theorem iid_item_id_item_iid id :
  iid_item_id (item_iid id)
  = if decide (0 ≤ id)%Z then inr id else inl IidValueError.
Proof.
  destruct (decide (0 ≤ id)%Z) as [Hpos|Hneg].
  - by apply iid_item_id_nonneg.
  - unfold iid_item_id, item_iid.
    destruct id as [|p|p]; [lia|lia|].
    change (py_str (Z.neg p))
      with (String "-" (NilZero.string_of_uint (Pos.to_uint p))).
    destruct (split_on_item_prefix _
                (split_on_nonneg_digits (Pos.to_uint p))) as [_ ->].
    reflexivity.
Qed.

Lemma item_iid_inj id id' :
  (0 ≤ id)%Z → (0 ≤ id')%Z → item_iid id = item_iid id' → id = id'.
Proof.
  intros Hid Hid' Heq.
  pose proof (iid_item_id_nonneg id Hid) as H1.
  pose proof (iid_item_id_nonneg id' Hid') as H2.
  rewrite Heq in H1. congruence.
Qed.

Lemma reachable_item_ids_pos c :
  reachable c →
  (0 ≤ DB.seq_items c)%Z ∧ Forall (λ it, (0 < item_id it)%Z) (DB.items c).
Proof.
  induction 1 as [|c name d id c' Hc [IHs IH] Hadd|c rid Hc [IHs IH]
                  |c rid n h p id c' Hc [IHs IH] Hadd|c iid Hc [IHs IH]
                  |c now iid Hc [IHs IH]]; simpl.
  - split; [done|constructor].
  - unfold DB.add_room in Hadd. destruct (decide _); [done|].
    by injection Hadd as <- <-.
  - split; [done|]. destruct (DB.foreign_keys c); [|done].
    by apply Forall_filter_keep.
  - unfold DB.add_item in Hadd. destruct (_ && _); [done|].
    injection Hadd as <- <-. simpl. split; [lia|].
    apply Forall_app. split; [done|]. repeat constructor. simpl. lia.
  - split; [done|]. by apply Forall_filter_keep.
  - done.
Qed.

Lemma filter_ext_in {A} (P Q : A → Prop)
    `{∀ x, Decision (P x), ∀ x, Decision (Q x)} (l : list A) :
  (∀ x, x ∈ l → P x ↔ Q x) → filter P l = filter Q l.
Proof.
  induction l as [|x l IH]; intros Hl; [done|].
  rewrite !filter_cons.
  assert (HPQ : P x ↔ Q x) by (apply Hl; by left).
  rewrite IH by (intros y Hy; apply Hl; by right).
  destruct (decide (P x)), (decide (Q x)); tauto.
Qed.

Lemma list_items_delete_item c iid rid :
  reachable c →
  DB.list_items (DB.delete_item c iid) rid
  = filter (λ v : item_view, v.1.1.1 ≠ iid) (DB.list_items c rid).
Proof.
  intros Hc.
  rewrite !list_items_ascending
    by (apply reachable_rowid_order; eauto using reachable).
  simpl. rewrite filter_fmap_comm. f_equal.
  rewrite !list_filter_filter. apply list_filter_iff.
  intros it. simpl. tauto.
Qed.

Lemma list_items_elem_of c rid v :
  v ∈ DB.list_items c rid →
  ∃ it, it ∈ DB.items c ∧ v = view_of it ∧ room_eq rid (item_room_id it).
Proof.
  unfold DB.list_items.
  intros (it & -> & Hit)%list_elem_of_fmap.
  rewrite order_by_id_Permutation in Hit.
  apply list_elem_of_filter in Hit as [Hroom Hit]. by exists it.
Qed.

(** X22: deleting the selected row of the item list deletes the item
    that the row stands for.  On a connection of the program, with the
    row of a stored item selected, a confirmed [delete_selected_item]
    removes that item from the store and no other, and the refreshed
    tree is the listing of the current room without the row that was
    selected; unconfirmed, it changes nothing. *)
Theorem delete_selected_item_deletes basename c p it :
  reachable c →
  it ∈ DB.items c →
  items_sel p = Some (item_iid (item_id it)) →
  delete_selected_item basename c p false = inr (c, p)
  ∧ ∃ c' p',
      delete_selected_item basename c p true = inr (c', p')
      ∧ c' = DB.delete_item c (item_id it)
      ∧ (it ∉ DB.items c')
      ∧ (∀ it', it' ∈ DB.items c → it' ≠ it → it' ∈ DB.items c')
      ∧ items_tree p'
        = filter (λ row, tree_iid row ≠ item_iid (item_id it))
                 (tree_row_of basename <$> DB.list_items c (current_room_id p))
      ∧ items_sel p' = None.
Proof.
  intros Hc Hit Hsel.
  destruct (reachable_item_ids_pos c Hc) as [_ Hpos].
  rewrite Forall_forall in Hpos.
  assert (Hid : (0 ≤ item_id it)%Z) by (specialize (Hpos it Hit); simpl in *; lia).
  unfold delete_selected_item. rewrite Hsel, iid_item_id_nonneg by done.
  split; [done|]. do 2 eexists. split; [reflexivity|]. split; [done|].
  split; [|split; [|split; [|done]]].
  - simpl. intros [Hne _]%list_elem_of_filter. by apply Hne.
  - intros it' Hit' Hne. simpl. apply list_elem_of_filter. split; [|done].
    intros Hsame. apply Hne.
    apply (id_lt_same_key item_id (DB.items c)); [|done..].
    by apply ro_items, reachable_rowid_order.
  - simpl. rewrite list_items_delete_item by done.
    rewrite filter_fmap_comm. f_equal.
    apply filter_ext_in. intros v Hv.
    apply list_items_elem_of in Hv as (it' & Hit' & -> & _).
    simpl. split.
    + intros Hne Heq. apply Hne.
      apply item_iid_inj; [|done..].
      specialize (Hpos it' Hit'). simpl in Hpos. lia.
    + intros Hne Heq. apply Hne. by rewrite Heq.
Qed.

Lemma delete_selected_item_deletes_witness :
  reachable demo_db
  ∧ ItemRow 2 (Some 1%Z) "B" "b" "" ∈ DB.items demo_db
  ∧ ∃ c' p',
      delete_selected_item (λ s, s) demo_db
        (ItemPane (Some 1%Z) [] (Some (item_iid 2))) true = inr (c', p')
      ∧ c' = DB.delete_item demo_db 2
      ∧ (ItemRow 2 (Some 1%Z) "B" "b" "" ∉ DB.items c').
Proof.
  assert (Hin : ItemRow 2 (Some 1%Z) "B" "b" "" ∈ DB.items demo_db).
  { right. by left. }
  split; [apply demo_db_reachable|]. split; [exact Hin|].
  destruct (delete_selected_item_deletes (λ s, s) demo_db
              (ItemPane (Some 1%Z) [] (Some (item_iid 2)))
              (ItemRow 2 (Some 1%Z) "B" "b" "")
              demo_db_reachable Hin eq_refl)
    as (_ & c' & p' & Hdel & Hc' & Hgone & _).
  by exists c', p'.
Defined.






(** X25: on a connection of the program the rows [refresh_items] puts
    into the tree have pairwise different [iid]s, one row per listed
    item, in the order of the listing, and no row is selected. *)
Theorem refresh_items_distinct basename c p rid :
  reachable c →
  NoDup (tree_iid <$> items_tree (refresh_items basename c p rid))
  ∧ tree_iid <$> items_tree (refresh_items basename c p rid)
    = (λ v : item_view, item_iid v.1.1.1) <$> DB.list_items c rid
  ∧ items_sel (refresh_items basename c p rid) = None
  ∧ current_room_id (refresh_items basename c p rid) = current_room_id p.
Proof.
  intros Hc.
  assert (Hiids : tree_iid <$> items_tree (refresh_items basename c p rid)
                  = (λ v : item_view, item_iid v.1.1.1) <$> DB.list_items c rid).
  { simpl. rewrite <- list_fmap_compose. apply list_fmap_ext.
    by intros i [[[id name] hint] path] _. }
  split; [|done]. rewrite Hiids.
  destruct (reachable_item_ids_pos c Hc) as [_ Hpos].
  rewrite Forall_forall in Hpos.
  rewrite list_items_ascending by by apply reachable_rowid_order.
  rewrite <- list_fmap_compose.
  apply NoDup_fmap_2_strong.
  - intros it it' [_ Hit]%list_elem_of_filter [_ Hit']%list_elem_of_filter Heq.
    simpl in Heq.
    apply (id_lt_same_key item_id (DB.items c)); [|done..|].
    + by apply ro_items, reachable_rowid_order.
    + apply item_iid_inj; [| |done].
      * specialize (Hpos it Hit). simpl in Hpos. lia.
      * specialize (Hpos it' Hit'). simpl in Hpos. lia.
  - apply NoDup_filter. eapply NoDup_fmap_1.
    apply (wf_item_ids c). by apply reachable_wf.
Qed.

Lemma refresh_items_distinct_witness :
  reachable demo_db
  ∧ NoDup (tree_iid <$> items_tree
             (refresh_items (λ s, s) demo_db (ItemPane None [] None)
                            (Some 1%Z)))
  ∧ tree_iid <$> items_tree
      (refresh_items (λ s, s) demo_db (ItemPane None [] None) (Some 1%Z))
    = (λ v : item_view, item_iid v.1.1.1) <$> DB.list_items demo_db (Some 1%Z).
Proof.
  split; [apply demo_db_reachable|].
  destruct (refresh_items_distinct (λ s, s) demo_db (ItemPane None [] None)
              (Some 1%Z) demo_db_reachable) as (Hnd & Hiids & _).
  by split.
Defined.
